(** * GitGPT conflict handling: the scanner of [main.py] and the patcher of
    [executor.py], embedded and verified.

    The embedding follows the Python source:
    - [parse_conflict_file] (main.py, lines 28-72) reads a file and walks its
      lines with an index, collecting one dictionary per conflict block;
    - [resolve_conflict] (executor.py, lines 110-215) shows a resolution, asks
      the user what to do and rewrites the file.

    Python [str] values are modelled as [string], the list returned by
    [readlines] as [list string], line indices as [nat] (they are never
    negative in the source), the dictionaries with a fixed set of keys as
    records, and the file system as a finite map from paths to the decoded
    text of each file. *)

From Stdlib Require Import Ascii String.
From stdpp Require Import base decidable option list gmap strings sorting.

(** ** Strings *)

Definition LF : ascii := "010"%char.
Definition CR : ascii := "013"%char.

(** The Python literal ['\n'] and the Windows terminator ['\r\n']. *)
Definition nl : string := String LF EmptyString.
Definition crlf : string := String CR (String LF EmptyString).

(** [s.startswith(prefix)] *)
Fixpoint startswith (s prefix : string) {struct prefix} : bool :=
  match prefix with
  | EmptyString => true
  | String c prefix' =>
      match s with
      | EmptyString => false
      | String d s' => if Ascii.eqb c d then startswith s' prefix' else false
      end
  end.

(** [s.endswith(suffix)]: some tail of [s] is [suffix]. *)
Fixpoint endswith (s suffix : string) : bool :=
  String.eqb s suffix ||
  match s with
  | EmptyString => false
  | String _ s' => endswith s' suffix
  end.

(** [''.join(ls)] *)
Fixpoint join (ls : list string) : string :=
  match ls with
  | [] => EmptyString
  | l :: ls' => l +:+ join ls'
  end.

(** Truth value of a string: [if s:] holds for every non-empty string. *)
Definition truthy (s : string) : bool :=
  match s with
  | EmptyString => false
  | String _ _ => true
  end.

(** [l[a:b]] for non-negative [a] and [b]; like Python, [take] and [drop]
    clip at the end of the list and an empty range gives the empty list. *)
Definition slice {A : Type} (l : list A) (a b : nat) : list A :=
  take (b - a) (drop a l).

(** ** Reading and writing text files *)

(** [open(path, 'r')] is called without a [newline] argument, so Python
    reads in universal-newlines mode: ['\r\n'] and a lone ['\r'] both reach
    the program as ['\n']. *)
Fixpoint universal_newlines (s : string) : string :=
  match s with
  | EmptyString => EmptyString
  | String c rest =>
      if Ascii.eqb c CR then
        match rest with
        | String d rest' =>
            if Ascii.eqb d LF then String LF (universal_newlines rest')
            else String LF (universal_newlines rest)
        | EmptyString => String LF EmptyString
        end
      else String c (universal_newlines rest)
  end.

(** Cut a text after every ['\n'], keeping the terminators; [cur] is the
    line being built.  A last line without terminator is kept as it is. *)
Fixpoint split_lines (cur : string) (s : string) : list string :=
  match s with
  | EmptyString => if truthy cur then [cur] else []
  | String c rest =>
      if Ascii.eqb c LF then (cur +:+ nl) :: split_lines EmptyString rest
      else split_lines (cur +:+ String c EmptyString) rest
  end.

(** [f.readlines()] on a file opened for reading as above. *)
Definition readlines (text : string) : list string :=
  split_lines EmptyString (universal_newlines text).

(** [f.writelines(new_lines)] on a file opened with [newline='']: the
    strings are written one after the other, nothing is translated. *)
Definition writelines (new_lines : list string) : string := join new_lines.

(** File-system operations a call performs, in order: opening a file to
    read it, a write that went through, and a write that raised. *)
Inductive io_op : Type :=
  | IoRead (path : string)
  | IoWrite (path : string) (data : string)
  | IoFailedWrite (path : string).

(** How writing a file back ends (executor.py lines 207-208): the text is
    written; or [open(file_path, 'w')] raises and the file is left as it
    was (a read-only file); or [writelines] raises after [open] has
    truncated the file, which is left holding [rest]. *)
Inductive WriteResult : Type :=
  | WriteOk
  | OpenRefused
  | WriteCut (rest : string).

(** The world outside the program: the text of every file that can be
    opened for reading, and the log of the reads and writes done so far. *)
Record World : Type := mkWorld {
  files : gmap string string;
  io_log : list io_op
}.

(** ** The scanner (main.py) *)

(** The dictionary appended to [conflicts] at main.py lines 61-69. *)
Record Conflict : Type := mkConflict {
  file_path : string;
  start_line : nat;
  end_line : nat;
  current_content : string;
  incoming_content : string;
  context_before : string;
  context_after : string
}.

(** The two inner loops (lines 49-51 and 55-57):
    [while i < len(lines) and not lines[i].startswith(tok):
         acc.append(lines[i]); i += 1].
    [rest] is [lines[i:]], so [rest = []] exactly when [i >= len(lines)].
    The result is the final [i] and the final accumulator. *)
Fixpoint collect_until (tok : string) (rest : list string) (i : nat)
    (acc : list string) : nat * list string :=
  match rest with
  | [] => (i, acc)
  | line :: rest' =>
      if startswith line tok then (i, acc)
      else collect_until tok rest' (i + 1) (acc ++ [line])
  end.

(** The outer loop (lines 40-70), one iteration per unit of [fuel].  Every
    iteration increases [i], so [length lines - i] units are enough
    ([scan_from_fuel_eq] below).  [lines !! i = None] is [i >= len(lines)].
    On [nat] the difference [i - 5] stops at [0], as [max(0, i-5)] does. *)
Fixpoint scan_from (fuel : nat) (path : string) (lines : list string)
    (i : nat) (conflicts : list Conflict) : list Conflict :=
  match fuel with
  | 0 => conflicts
  | S fuel' =>
      match lines !! i with
      | None => conflicts
      | Some line =>
          if startswith line "<<<<<<<" then
            let conflict_start := i in
            let context_before := join (slice lines (Nat.max 0 (i - 5)) i) in
            let '(i1, current_lines) :=
              collect_until "=======" (drop (i + 1) lines) (i + 1) [] in
            let i2 := i1 + 1 in
            let '(i3, incoming_lines) :=
              collect_until ">>>>>>>" (drop i2 lines) i2 [] in
            let context_after :=
              join (slice lines (i3 + 1) (Nat.min (length lines) (i3 + 6))) in
            scan_from fuel' path lines (i3 + 1)
              (conflicts ++
               [ {| file_path := path;
                    start_line := conflict_start;
                    end_line := i3;
                    current_content := join current_lines;
                    incoming_content := join incoming_lines;
                    context_before := context_before;
                    context_after := context_after |} ])
          else scan_from fuel' path lines (i + 1) conflicts
      end
  end.

(** Lines 37-72: the scan of the lines of one file. *)
Definition scan_lines (path : string) (lines : list string) : list Conflict :=
  scan_from (length lines) path lines 0 [].

(** [parse_conflict_file(file_path)]: a file that cannot be opened gives the
    empty list (lines 30-35). *)
Definition parse_conflict_file (w : World) (path : string) : list Conflict :=
  match files w !! path with
  | None => []
  | Some text => scan_lines path (readlines text)
  end.

(** ** The patcher (executor.py) *)

(** The [resolution] dictionary decoded from the model's JSON answer; a key
    that is absent makes [resolution.get] return [None]. *)
Record Resolution : Type := mkResolution {
  suggestion : option string;
  merged_content : option string;
  explanation : option string;
  confidence : option string;
  reasoning : option string
}.

(** What [questionary.select(...).ask()] does at lines 159-172: it returns
    the label the user picked; or it returns [None], which is what
    questionary's [ask] gives when the user leaves the menu with Ctrl-C
    (it catches the interrupt itself); or a [KeyboardInterrupt] comes out of
    the call, the one case the [except] clause of line 170 takes. *)
Inductive Answer : Type :=
  | Chose (choice : string)
  | NoChoice
  | KeyboardInterrupt.

(** How a call of [resolve_conflict] ends: it returns a boolean, or an
    exception leaves it. *)
Inductive Outcome : Type :=
  | Returned (b : bool)
  | Raised.

(** Lines 183-188: the content chosen by the menu entry. *)
Definition select_content (choice merged current incoming : string) : string :=
  if String.eqb choice "Keep YOUR version" then current
  else if String.eqb choice "Keep THEIR version" then incoming
  else merged.

(** Lines 195-197: "Ensure content ends with newline". *)
Definition ensure_newline (content_to_apply : string) : string :=
  if truthy content_to_apply && negb (endswith content_to_apply nl)
  then content_to_apply +:+ nl
  else content_to_apply.

(** Lines 200-205: replace the conflict block. *)
Definition splice (lines : list string) (start_line end_line : nat)
    (content_to_apply : string) : list string :=
  take start_line lines ++ [content_to_apply] ++ drop (end_line + 1) lines.

(** Lines 183-188 for every answer that reaches them: [None] is none of the
    labels, so [content_to_apply] stays [merged_content]. *)
Definition chosen_content (answer : Answer) (merged current incoming : string)
    : string :=
  match answer with
  | Chose choice => select_content choice merged current incoming
  | NoChoice => merged
  | KeyboardInterrupt => merged
  end.

Section Storage.

(** Whether the file system takes the text written to a path is not decided
    by the source: it is an input of the model. *)
Variable write_result : string → string → WriteResult.

(** Lines 190-215: read the file, splice, write it back.  Everything stands
    in one [try] whose [except Exception] returns [False]: a file that
    cannot be opened for reading, an [open] for writing that is refused
    after the read, and a [writelines] that raises after the file has been
    truncated. *)
Definition apply_resolution (conflict_block : Conflict)
    (content_to_apply : string) (w : World) : Outcome * World :=
  let path := file_path conflict_block in
  match files w !! path with
  | None => (Returned false, mkWorld (files w) (io_log w ++ [IoRead path]))
  | Some text =>
      let lines := readlines text in
      let content := ensure_newline content_to_apply in
      let new_lines :=
        splice lines (start_line conflict_block) (end_line conflict_block)
          content in
      match write_result path (writelines new_lines) with
      | WriteOk =>
          (Returned true,
           mkWorld (<[path := writelines new_lines]> (files w))
                   (io_log w
                    ++ [IoRead path; IoWrite path (writelines new_lines)]))
      | OpenRefused =>
          (Returned false,
           mkWorld (files w) (io_log w ++ [IoRead path; IoFailedWrite path]))
      | WriteCut rest =>
          (Returned false,
           mkWorld (<[path := rest]> (files w))
                   (io_log w ++ [IoRead path; IoFailedWrite path]))
      end
  end.

End Storage.

(** Lines 129-156 print the conflict and the resolution through the [rich]
    library before the menu is shown, outside every [try].  Two things can
    end the call there with an exception: [suggestion.upper()] (line 150)
    when the resolution has no suggestion, and [rich] itself when it is
    given something it does not render.  The first is decided by the source;
    the second belongs to the library and is an input of the model, like the
    user's answer to the menu. *)
Section Display.

Variable rich_renders : Conflict → Resolution → bool.
Variable write_result : string → string → WriteResult.

Definition menu_shown (conflict_block : Conflict) (resolution : Resolution)
    : bool :=
  match suggestion resolution with
  | None => false
  | Some _ => rich_renders conflict_block resolution
  end.

(** [resolve_conflict(conflict_block, resolution)], with the outcome of the
    menu as a further input.  A [choice] that is [None] is neither
    ["Cancel"] nor ["Skip for now"], and none of the two "Keep" labels: the
    call goes on and applies [merged_content].  What is printed is not part
    of the world. *)
Definition resolve_conflict (conflict_block : Conflict)
    (resolution : Resolution) (answer : Answer) (w : World)
    : Outcome * World :=
  match merged_content resolution with
  | None => (Returned false, w)
  | Some merged =>
      if negb (truthy merged) then (Returned false, w)
      else if negb (menu_shown conflict_block resolution) then (Raised, w)
      else
        match answer with
        | KeyboardInterrupt => (Returned false, w)
        | NoChoice => apply_resolution write_result conflict_block merged w
        | Chose choice =>
            if String.eqb choice "Cancel" then (Returned false, w)
            else if String.eqb choice "Skip for now" then (Returned false, w)
            else
              apply_resolution write_result conflict_block
                (select_content choice merged
                   (current_content conflict_block)
                   (incoming_content conflict_block))
                w
        end
  end.

End Display.

(** A console on which everything is printed. *)
Definition prints_all (_ : Conflict) (_ : Resolution) : bool := true.

(** A file system that takes every write. *)
Definition always_written (_ _ : string) : WriteResult := WriteOk.

(** ** Derived forms used in the proofs *)

(** Number of lines at the head of [rest] that do not start with [tok]:
    how far an inner loop advances. *)
Fixpoint leading (tok : string) (rest : list string) : nat :=
  match rest with
  | [] => 0
  | line :: rest' => if startswith line tok then 0 else S (leading tok rest')
  end.

(** The dictionary built by one pass through lines 42-69 for an opening
    marker found at index [i]. *)
Definition block_at (path : string) (lines : list string) (i : nat) : Conflict :=
  let '(i1, current_lines) :=
    collect_until "=======" (drop (i + 1) lines) (i + 1) [] in
  let i2 := i1 + 1 in
  let '(i3, incoming_lines) :=
    collect_until ">>>>>>>" (drop i2 lines) i2 [] in
  {| file_path := path;
     start_line := i;
     end_line := i3;
     current_content := join current_lines;
     incoming_content := join incoming_lines;
     context_before := join (slice lines (Nat.max 0 (i - 5)) i);
     context_after :=
       join (slice lines (i3 + 1) (Nat.min (length lines) (i3 + 6))) |}.

(** The outer loop started at index [i] with exactly the fuel it needs. *)
Definition scan_at (path : string) (lines : list string) (i : nat)
    (conflicts : list Conflict) : list Conflict :=
  scan_from (length lines - i) path lines i conflicts.

(** ** Notions of the specification *)

(** An opening marker at index [s] with no closing marker on any later line. *)
Definition unterminated_at (lines : list string) (s : nat) : bool :=
  match lines !! s with
  | None => false
  | Some line =>
      startswith line "<<<<<<<" &&
      forallb (fun l => negb (startswith l ">>>>>>>")) (drop (s + 1) lines)
  end.

(** One conflict region as it stands in a file. *)
Record Block : Type := mkBlock {
  open_line : string;
  local_lines : list string;
  sep_line : string;
  incoming_lines : list string;
  close_line : string
}.

Definition block_lines (b : Block) : list string :=
  open_line b :: local_lines b ++ sep_line b :: incoming_lines b ++ [close_line b].

(** A file with N regions: each region preceded by ordinary lines, and
    ordinary lines after the last one. *)
Record Document : Type := mkDocument {
  segments : list (list string * Block);
  trailer : list string
}.

Fixpoint render_segments (segs : list (list string * Block)) : list string :=
  match segs with
  | [] => []
  | (plain, b) :: segs' => plain ++ block_lines b ++ render_segments segs'
  end.

Definition render (doc : Document) : list string :=
  render_segments (segments doc) ++ trailer doc.

Definition blocks (doc : Document) : list Block := snd <$> segments doc.

Definition no_prefix (tok : string) (ls : list string) : bool :=
  forallb (fun l => negb (startswith l tok)) ls.

(** The three marker lines carry their tokens, the local side holds no
    separator line and the incoming side no closing line. *)
Definition well_formed_block (b : Block) : bool :=
  startswith (open_line b) "<<<<<<<" &&
  no_prefix "=======" (local_lines b) &&
  startswith (sep_line b) "=======" &&
  no_prefix ">>>>>>>" (incoming_lines b) &&
  startswith (close_line b) ">>>>>>>".

(** Well-formed: every region is, and no ordinary line opens a region. *)
Definition well_formed (doc : Document) : bool :=
  forallb (fun seg => no_prefix "<<<<<<<" (fst seg) && well_formed_block (snd seg))
    (segments doc) &&
  no_prefix "<<<<<<<" (trailer doc).

(** A line as [readlines] returns it before the end of a file: one line
    feed, at the end. *)
Fixpoint terminated (line : string) : bool :=
  match line with
  | EmptyString => false
  | String c rest =>
      if Ascii.eqb c LF then negb (truthy rest) else terminated rest
  end.

(** Start and end index of every region, in file order. *)
Definition bounds (rs : list Conflict) : list nat :=
  flat_map (fun r => [start_line r; end_line r]) rs.

(** A scanned region [r] reproduces the region [b] of the file [lines]. *)
Definition reproduces (lines : list string) (r : Conflict) (b : Block) : Prop :=
  lines !! start_line r = Some (open_line b) ∧
  slice lines (start_line r + 1) (start_line r + 1 + length (local_lines b))
    = local_lines b ∧
  lines !! (start_line r + 1 + length (local_lines b)) = Some (sep_line b) ∧
  slice lines (start_line r + 2 + length (local_lines b)) (end_line r)
    = incoming_lines b ∧
  lines !! end_line r = Some (close_line b) ∧
  current_content r = join (local_lines b) ∧
  incoming_content r = join (incoming_lines b) ∧
  (forallb terminated (local_lines b) = true →
   split_lines EmptyString (current_content r) = local_lines b) ∧
  (forallb terminated (incoming_lines b) = true →
   split_lines EmptyString (incoming_content r) = incoming_lines b).

(** Terminator style of a text on disk: occurrences of ['\r\n'] against
    occurrences of ['\n'] without a ['\r'] before it. *)
Fixpoint count_crlf (s : string) : nat :=
  match s with
  | EmptyString => 0
  | String c rest =>
      match rest with
      | String d _ =>
          (if Ascii.eqb c CR && Ascii.eqb d LF then 1 else 0) + count_crlf rest
      | EmptyString => 0
      end
  end.

Fixpoint count_lf (s : string) : nat :=
  match s with
  | EmptyString => 0
  | String c rest => (if Ascii.eqb c LF then 1 else 0) + count_lf rest
  end.

Definition dominant_terminator (text : string) : string :=
  if Nat.ltb (count_lf text - count_crlf text) (count_crlf text) then crlf
  else nl.

(** ** The scenario of the specification *)

Definition scenario_lines : list string :=
  [ "a" +:+ nl; "<<<<<<< HEAD" +:+ nl; "x" +:+ nl; "=======" +:+ nl;
    "y" +:+ nl; ">>>>>>> feature" +:+ nl; "b" +:+ nl ].

Definition scenario_region (path : string) : Conflict :=
  {| file_path := path;
     start_line := 1;
     end_line := 5;
     current_content := join ["x" +:+ nl];
     incoming_content := join ["y" +:+ nl];
     context_before := join ["a" +:+ nl];
     context_after := join ["b" +:+ nl] |}.

(** A resolution that passes the checks before the menu. *)
Definition shown_resolution (tag merged : string) : Resolution :=
  {| suggestion := Some tag;
     merged_content := Some merged;
     explanation := Some "explanation";
     confidence := Some "HIGH";
     reasoning := Some "reasoning" |}.

Definition world_with (path text : string) : World :=
  mkWorld {[ path := text ]} [].

(** The scenario with Windows line ends, as the text on disk. *)
Definition crlf_scenario_text : string :=
  join [ "a" +:+ crlf; "<<<<<<< HEAD" +:+ crlf; "x" +:+ crlf;
         "=======" +:+ crlf; "y" +:+ crlf; ">>>>>>> feature" +:+ crlf;
         "b" +:+ crlf ].

(** A region whose local side is empty: the current branch deleted the
    lines that the incoming branch changed. *)
Definition one_sided_lines : list string :=
  [ "<<<<<<< HEAD" +:+ nl; "=======" +:+ nl; "y" +:+ nl;
    ">>>>>>> feature" +:+ nl ].

Definition one_sided_region (path : string) : Conflict :=
  {| file_path := path;
     start_line := 0;
     end_line := 3;
     current_content := EmptyString;
     incoming_content := "y" +:+ nl;
     context_before := EmptyString;
     context_after := EmptyString |}.

(** A region whose sides hold lines that begin with the three tokens, and
    a line that begins with [=======] after it. *)
Definition nested_lines : list string :=
  [ "<<<<<<< HEAD" +:+ nl; "<<<<<<< nested" +:+ nl; ">>>>>>> early" +:+ nl;
    "======= base" +:+ nl; "======= more" +:+ nl; ">>>>>>> feature" +:+ nl;
    "======= stray" +:+ nl ].

Definition nested_region (path : string) : Conflict :=
  {| file_path := path;
     start_line := 0;
     end_line := 5;
     current_content :=
       ("<<<<<<< nested" +:+ nl) +:+ (">>>>>>> early" +:+ nl);
     incoming_content := "======= more" +:+ nl;
     context_before := EmptyString;
     context_after := "======= stray" +:+ nl |}.

(** ** Further notions *)

(** [c in s] for a character [c]. *)
Fixpoint mentions (c : ascii) (s : string) : bool :=
  match s with
  | EmptyString => false
  | String d rest => Ascii.eqb c d || mentions c rest
  end.

(** ** The list of conflicted files (main.py) *)

(** [s.split(sep)] for a one-character separator; [cur] is the piece being
    built.  The empty string gives one empty piece. *)
Fixpoint split_on (sep : ascii) (cur : string) (s : string) : list string :=
  match s with
  | EmptyString => [cur]
  | String c rest =>
      if Ascii.eqb c sep then cur :: split_on sep EmptyString rest
      else split_on sep (cur +:+ String c EmptyString) rest
  end.

(** [s.strip()] removes the characters for which [str.isspace] holds from
    both ends.  Which characters these are is Python's business: the
    predicate is an input of the model. *)
Section Strip.

Variable isspace : ascii → bool.

Fixpoint lstrip (s : string) : string :=
  match s with
  | EmptyString => EmptyString
  | String c rest => if isspace c then lstrip rest else s
  end.

Fixpoint rstrip (s : string) : string :=
  match s with
  | EmptyString => EmptyString
  | String c rest =>
      match rstrip rest with
      | EmptyString => if isspace c then EmptyString else String c EmptyString
      | String d kept => String c (String d kept)
      end
  end.

Definition strip (s : string) : string := rstrip (lstrip s).

(** [get_conflicted_files()], lines 16-26.  [git_output] is the standard
    output of [git diff --name-only --diff-filter=U], or [None] when
    running it raises (git is missing, or exits with an error under
    [check=True]); the bare [except] then returns the empty list. *)
Definition get_conflicted_files (git_output : option string) : list string :=
  match git_output with
  | None => []
  | Some stdout =>
      filter (λ f, truthy f = true) (strip <$> split_on LF EmptyString stdout)
  end.

End Strip.

(** ** The handler of a merge (main.py) *)

(** The counters of [handle_conflict_resolution] and the world, while the
    handler runs; [calls] counts the conflicts met so far and numbers the
    answers of the model and of the user. *)
Record Progress : Type := mkProgress {
  calls : nat;
  total_conflicts : nat;
  resolved_count : nat;
  world : World
}.

(** How the loops end: they run to their end, or an exception leaves them
    ([resolve_conflict] raises outside every [try] of the handler). *)
Inductive Handled : Type :=
  | Completed (st : Progress)
  | Broken (st : Progress).

(** The counters and the world the loops were left with. *)
Definition progress_of (h : Handled) : Progress :=
  match h with
  | Completed st => st
  | Broken st => st
  end.

(** What [handle_conflict_resolution] reports. *)
Inductive Report : Type :=
  | NotARepository
  | NoConflicts
  | Summary (resolved total : nat)
  | Exception.

Section Handler.

Variable isspace : ascii → bool.
Variable rich_renders : Conflict → Resolution → bool.
Variable write_result : string → string → WriteResult.

(** [get_conflict_resolution(conflict)] asks a language model: its [k]-th
    answer is an input.  [None] stands for every answer that Python takes
    as false (no answer, or an empty object). *)
Variable get_conflict_resolution : nat → Conflict → option Resolution.

(** The outcome of the menu shown for the [k]-th conflict. *)
Variable ask : nat → Answer.

(** Lines 137-154: the conflicts of one file, in the order of the scan. *)
Fixpoint handle_conflicts (conflicts : list Conflict) (st : Progress)
    : Handled :=
  match conflicts with
  | [] => Completed st
  | conflict :: rest =>
      match get_conflict_resolution (calls st) conflict with
      | None =>
          handle_conflicts rest
            (mkProgress (calls st + 1) (total_conflicts st)
               (resolved_count st) (world st))
      | Some resolution =>
          match
            resolve_conflict rich_renders write_result conflict resolution
              (ask (calls st)) (world st)
          with
          | (Raised, w') =>
              Broken
                (mkProgress (calls st + 1) (total_conflicts st)
                   (resolved_count st) w')
          | (Returned true, w') =>
              handle_conflicts rest
                (mkProgress (calls st + 1) (total_conflicts st)
                   (resolved_count st + 1) w')
          | (Returned false, w') =>
              handle_conflicts rest
                (mkProgress (calls st + 1) (total_conflicts st)
                   (resolved_count st) w')
          end
      end
  end.

(** Lines 128-154: the conflicted files, one after the other.  Each file is
    scanned once, when its turn comes; a file without conflicts is passed
    over.  The messages the handler prints itself are left out. *)
Fixpoint handle_files (conflicted_files : list string) (st : Progress)
    : Handled :=
  match conflicted_files with
  | [] => Completed st
  | path :: rest =>
      let conflicts := parse_conflict_file (world st) path in
      let w1 := mkWorld (files (world st)) (io_log (world st) ++ [IoRead path]) in
      match conflicts with
      | [] =>
          handle_files rest
            (mkProgress (calls st) (total_conflicts st) (resolved_count st) w1)
      | _ :: _ =>
          match
            handle_conflicts conflicts
              (mkProgress (calls st) (total_conflicts st + length conflicts)
                 (resolved_count st) w1)
          with
          | Completed st' => handle_files rest st'
          | Broken st' => Broken st'
          end
      end
  end.

(** [handle_conflict_resolution()], lines 101-166.  [in_repository] tells
    whether [git rev-parse --git-dir] succeeds, [git_output] is what
    [get_conflicted_files] gets from git. *)
Definition handle_conflict_resolution (in_repository : bool)
    (git_output : option string) (w : World) : Report * World :=
  if negb in_repository then (NotARepository, w)
  else
    match get_conflicted_files isspace git_output with
    | [] => (NoConflicts, w)
    | conflicted_files =>
        match handle_files conflicted_files (mkProgress 0 0 0 w) with
        | Completed st =>
            (Summary (resolved_count st) (total_conflicts st), world st)
        | Broken st => (Exception, world st)
        end
    end.

End Handler.

(** Number of writes in a log: the writes that went through. *)
Fixpoint count_writes (log : list io_op) : nat :=
  match log with
  | [] => 0
  | IoWrite _ _ :: log' => S (count_writes log')
  | IoRead _ :: log' => count_writes log'
  | IoFailedWrite _ :: log' => count_writes log'
  end.

(** ** Running a generated command (executor.py) *)

(** The [command_data] dictionary; [auto_execute] is the truth value of
    [command_data.get("auto_execute", False)]. *)
Record CommandData : Type := mkCommandData {
  command : option string;
  command_explanation : option string;
  ambiguity_warning : option string;
  next_step_suggestion : option string;
  auto_execute : bool
}.

(** What [questionary.confirm(...).ask()] does at lines 64-69: an answer
    ([None] counts as no), or the call is interrupted. *)
Inductive Reply : Type :=
  | Confirmed (yes : bool)
  | ReplyInterrupted.

(** What a call of [confirm_and_execute] does to its surroundings. *)
Inductive Effect : Type :=
  | Asked
  | Ran (shell_command : string).

Section ConfirmAndExecute.

(** Whether [rich] prints the panels of lines 26-54, which stand outside
    every [try]. *)
Variable panels_render : CommandData → bool.

(** [confirm_and_execute(command_data)], lines 10-107, with the user's
    reply as a further input.  The function returns no value: the result is
    what the call did, or [None] when an exception leaves it.  What the
    shell command itself does is outside the model. *)
Definition confirm_and_execute (command_data : CommandData) (reply : Reply)
    : option (list Effect) :=
  match command command_data with
  | None => Some []
  | Some cmd =>
      if negb (truthy cmd) then Some []
      else if negb (panels_render command_data) then None
      else if auto_execute command_data then Some [Ran cmd]
      else
        match reply with
        | ReplyInterrupted => Some [Asked]
        | Confirmed yes => if yes then Some [Asked; Ran cmd] else Some [Asked]
        end
  end.

End ConfirmAndExecute.

(** [str.isspace] on the characters of ASCII: space, the five controls
    from tab to carriage return, and the four separators [\x1c]-[\x1f]. *)
Definition isspace_ascii (c : ascii) : bool :=
  let n := nat_of_ascii c in
  Nat.eqb n 32 || (Nat.leb 9 n && Nat.leb n 13) || (Nat.leb 28 n && Nat.leb n 31).

(** A model and a user that always answer the same. *)
Definition always_suggests (r : Resolution) (_ : nat) (_ : Conflict)
    : option Resolution := Some r.

Definition always_answers (a : Answer) (_ : nat) : Answer := a.

(** * Properties *)

(** ** Strings *)

Lemma startswith_app (s p : string) :
  startswith s p = true ↔ ∃ rest, s = p +:+ rest.
Proof.
  revert s. induction p as [|c p IH]; intros s; simpl.
  - split; [intros _; by exists s | done].
  - destruct s as [|d s]; simpl.
    + split; [done | intros [r Hr]; discriminate].
    + destruct (Ascii.eqb_spec c d) as [->|Hne].
      * rewrite IH. split; intros [r Hr]; exists r; [by rewrite Hr | by injection Hr].
      * split; [done | intros [r Hr]; injection Hr; congruence].
Qed.

Lemma startswith_false_app (s p : string) :
  startswith s p = false ↔ ¬ ∃ rest, s = p +:+ rest.
Proof.
  rewrite <-startswith_app. by destruct (startswith s p).
Qed.

Lemma endswith_app (s suffix : string) :
  endswith s suffix = true ↔ ∃ front, s = front +:+ suffix.
Proof.
  induction s as [|c s IH].
  - change (endswith EmptyString suffix)
      with (String.eqb EmptyString suffix || false).
    rewrite orb_false_r, String.eqb_eq. split.
    + intros <-. by exists EmptyString.
    + intros [[|d f] Hf]; simpl in Hf; [done | discriminate].
  - change (endswith (String c s) suffix)
      with (String.eqb (String c s) suffix || endswith s suffix).
    rewrite orb_true_iff, String.eqb_eq, IH. split.
    + intros [<- | [f ->]]; [by exists EmptyString | by exists (String c f)].
    + intros [[|d f] Hf]; simpl in Hf; [by left |].
      injection Hf as -> ->. right. by exists f.
Qed.

(** No line starts with both the opening and the closing token. *)
Lemma opening_not_closing (line : string) :
  startswith line "<<<<<<<" = true → startswith line ">>>>>>>" = false.
Proof.
  intros [rest ->]%startswith_app. reflexivity.
Qed.

Lemma string_app_cons (x : ascii) (a b : string) :
  String x a +:+ b = String x (a +:+ b).
Proof. reflexivity. Qed.

Lemma string_app_assoc (a b c : string) : (a +:+ b) +:+ c = a +:+ (b +:+ c).
Proof.
  induction a as [|x a IH]; [done |]. by rewrite !string_app_cons, IH.
Qed.

(** Joining lines loses nothing: cutting the joined text after every line
    feed gives the lines back. *)
Lemma split_lines_terminated (line cur rest : string) :
  terminated line = true →
  split_lines cur (line +:+ rest)
  = (cur +:+ line) :: split_lines EmptyString rest.
Proof.
  revert cur. induction line as [|c line IH]; intros cur Hline; [done |].
  cbn [terminated] in Hline. rewrite string_app_cons. cbn [split_lines].
  destruct (Ascii.eqb_spec c LF) as [-> | Hne].
  - destruct line as [|d line]; [|done]. reflexivity.
  - rewrite IH by done. f_equal.
    by rewrite string_app_assoc, string_app_cons.
Qed.

Lemma split_lines_join (ls : list string) :
  forallb terminated ls = true → split_lines EmptyString (join ls) = ls.
Proof.
  induction ls as [|l ls IH]; [done |]. cbn [forallb join].
  intros [Hl Hls]%andb_true_iff.
  rewrite split_lines_terminated by done. by rewrite IH.
Qed.

(** ** The inner loops *)

Lemma leading_le (tok : string) (rest : list string) :
  leading tok rest ≤ length rest.
Proof. induction rest as [|l rest IH]; simpl; [lia | destruct (startswith l tok); simpl; lia]. Qed.

Lemma leading_stop (tok : string) (rest : list string) (line : string) :
  rest !! leading tok rest = Some line → startswith line tok = true.
Proof.
  induction rest as [|l rest IH]; simpl; [done |].
  destruct (startswith l tok) eqn:E; simpl; [congruence | done].
Qed.

Lemma leading_no_prefix (tok : string) (xs : list string) (y : string)
    (rest : list string) :
  no_prefix tok xs = true → startswith y tok = true →
  leading tok (xs ++ y :: rest) = length xs.
Proof.
  intros Hxs Hy. induction xs as [|x xs IH]; simpl in *; [by rewrite Hy |].
  apply andb_true_iff in Hxs as [Hx Hxs]. apply negb_true_iff in Hx.
  rewrite Hx. by rewrite IH.
Qed.

(** The loop stops at the first line that starts with [tok], or at the end,
    and has appended every line it passed. *)
Lemma collect_until_leading (tok : string) (rest : list string) (i : nat)
    (acc : list string) :
  collect_until tok rest i acc
  = (i + leading tok rest, acc ++ take (leading tok rest) rest).
Proof.
  revert i acc. induction rest as [|l rest IH]; intros i acc; simpl.
  - by rewrite Nat.add_0_r, app_nil_r.
  - destruct (startswith l tok); simpl.
    + by rewrite Nat.add_0_r, app_nil_r.
    + rewrite IH, <-app_assoc. simpl. f_equal. lia.
Qed.

(** ** The outer loop *)

Lemma block_at_eq (path : string) (lines : list string) (i : nat) :
  let n1 := leading "=======" (drop (i + 1) lines) in
  let n2 := leading ">>>>>>>" (drop (i + 2 + n1) lines) in
  block_at path lines i =
  {| file_path := path;
     start_line := i;
     end_line := i + 2 + n1 + n2;
     current_content := join (take n1 (drop (i + 1) lines));
     incoming_content := join (take n2 (drop (i + 2 + n1) lines));
     context_before := join (slice lines (i - 5) i);
     context_after :=
       join (slice lines (i + 3 + n1 + n2)
               (Nat.min (length lines) (i + 8 + n1 + n2))) |}.
Proof.
  intros n1 n2. unfold block_at. rewrite collect_until_leading. fold n1.
  replace (i + 1 + n1 + 1) with (i + 2 + n1) by lia.
  rewrite collect_until_leading. fold n2. simpl.
  f_equal; f_equal; f_equal; lia.
Qed.

Lemma block_at_start (path : string) (lines : list string) (i : nat) :
  start_line (block_at path lines i) = i.
Proof. by rewrite block_at_eq. Qed.

Lemma block_at_end_gt (path : string) (lines : list string) (i : nat) :
  i + 2 ≤ end_line (block_at path lines i).
Proof. rewrite block_at_eq. simpl. lia. Qed.

Lemma scan_from_step (fuel : nat) (path : string) (lines : list string)
    (i : nat) (conflicts : list Conflict) :
  scan_from (S fuel) path lines i conflicts =
  match lines !! i with
  | None => conflicts
  | Some line =>
      if startswith line "<<<<<<<" then
        scan_from fuel path lines (end_line (block_at path lines i) + 1)
          (conflicts ++ [block_at path lines i])
      else scan_from fuel path lines (i + 1) conflicts
  end.
Proof.
  cbn [scan_from]. destruct (lines !! i) as [line|]; [|done].
  destruct (startswith line "<<<<<<<"); [|done].
  unfold block_at.
  destruct (collect_until "=======" (drop (i + 1) lines) (i + 1) []) as [i1 cur].
  by destruct (collect_until ">>>>>>>" (drop (i1 + 1) lines) (i1 + 1) []) as [i3 inc].
Qed.

(** The fuel never ends the loop: two amounts of at least [length lines - i]
    give the same result, the one of the loop itself. *)
Lemma scan_from_fuel_eq (fuel fuel' : nat) (path : string)
    (lines : list string) (i : nat) (conflicts : list Conflict) :
  length lines - i ≤ fuel → length lines - i ≤ fuel' →
  scan_from fuel path lines i conflicts = scan_from fuel' path lines i conflicts.
Proof.
  revert fuel' i conflicts.
  induction fuel as [|fuel IH]; intros fuel' i conflicts Hfuel Hfuel'.
  - destruct fuel' as [|fuel']; [done |].
    rewrite scan_from_step. by rewrite lookup_ge_None_2 by lia.
  - destruct fuel' as [|fuel'].
    + rewrite scan_from_step. by rewrite lookup_ge_None_2 by lia.
    + rewrite !scan_from_step. destruct (lines !! i) as [line|]; [|done].
      pose proof (block_at_end_gt path lines i) as Hend.
      destruct (startswith line "<<<<<<<"); apply IH; lia.
Qed.

Lemma scan_from_fuel (fuel : nat) (path : string) (lines : list string)
    (i : nat) (conflicts : list Conflict) :
  length lines - i ≤ fuel →
  scan_from fuel path lines i conflicts = scan_at path lines i conflicts.
Proof. intros H. apply scan_from_fuel_eq; [done | lia]. Qed.

Lemma scan_lines_at (path : string) (lines : list string) :
  scan_lines path lines = scan_at path lines 0 [].
Proof. unfold scan_lines. apply scan_from_fuel. lia. Qed.

Lemma scan_at_end (path : string) (lines : list string) (i : nat)
    (conflicts : list Conflict) :
  length lines ≤ i → scan_at path lines i conflicts = conflicts.
Proof. intros H. unfold scan_at. by replace (length lines - i) with 0 by lia. Qed.

Lemma scan_at_step (path : string) (lines : list string) (i : nat)
    (conflicts : list Conflict) (line : string) :
  lines !! i = Some line →
  scan_at path lines i conflicts =
  if startswith line "<<<<<<<" then
    scan_at path lines (end_line (block_at path lines i) + 1)
      (conflicts ++ [block_at path lines i])
  else scan_at path lines (i + 1) conflicts.
Proof.
  intros Hi. pose proof (lookup_lt_Some _ _ _ Hi) as Hlt.
  pose proof (block_at_end_gt path lines i) as Hend.
  unfold scan_at at 1. destruct (length lines - i) as [|n] eqn:En; [lia |].
  rewrite scan_from_step, Hi.
  destruct (startswith line "<<<<<<<"); apply scan_from_fuel; lia.
Qed.

(** ** The patcher *)

Lemma slice_0 {A : Type} (l : list A) (n : nat) : slice l 0 n = take n l.
Proof. unfold slice. by rewrite Nat.sub_0_r, drop_0. Qed.

Lemma splice_lookup_before (lines : list string) (s e : nat) (content : string)
    (i : nat) (line : string) :
  i < s → lines !! i = Some line → splice lines s e content !! i = Some line.
Proof.
  intros Hi Hline. pose proof (lookup_lt_Some _ _ _ Hline) as Hlt.
  unfold splice. rewrite lookup_app_l by (rewrite length_take; lia).
  by rewrite lookup_take_lt.
Qed.

Lemma splice_lookup_at (lines : list string) (s e : nat) (content : string) :
  s ≤ length lines → splice lines s e content !! s = Some content.
Proof.
  intros Hs. unfold splice.
  rewrite lookup_app_r by (rewrite length_take; lia).
  rewrite length_take. by replace (s - s `min` length lines) with 0 by lia.
Qed.

Lemma splice_lookup_after (lines : list string) (s e : nat) (content : string)
    (k : nat) :
  s ≤ length lines →
  splice lines s e content !! (s + 1 + k) = lines !! (e + 1 + k).
Proof.
  intros Hs. unfold splice.
  rewrite lookup_app_r by (rewrite length_take; lia).
  rewrite length_take. replace (s + 1 + k - s `min` length lines) with (S k) by lia.
  simpl. by rewrite lookup_drop.
Qed.

Lemma splice_length (lines : list string) (s e : nat) (content : string) :
  s ≤ e → e < length lines →
  length (splice lines s e content) + (e - s) = length lines.
Proof.
  intros Hse He. unfold splice. rewrite length_app, length_take. simpl.
  rewrite length_drop. lia.
Qed.

(** C3. For every list of file lines, every region and every replacement
    text, the patcher's new list is
    [fileLines[0:startLine] ++ [replacement] ++ fileLines[endLine+1:]]:
    the lines before the region are unchanged, the replacement stands where
    the opening marker stood, the lines after the closing marker follow it
    unchanged, and the lines from [startLine] to [endLine] are gone; this
    spliced list is what the patcher writes to the file: it is written
    when the file system takes the write, and the patcher never returns
    [True] having written anything else. *)
Theorem splice_replaces_block (lines : list string) (c : Conflict)
    (content : string) :
  let new_lines := splice lines (start_line c) (end_line c) content in
  new_lines
    = slice lines 0 (start_line c) ++ [content] ++ drop (end_line c + 1) lines ∧
  (∀ i line, i < start_line c → lines !! i = Some line →
     new_lines !! i = Some line) ∧
  (start_line c ≤ length lines →
     new_lines !! start_line c = Some content ∧
     ∀ k, new_lines !! (start_line c + 1 + k) = lines !! (end_line c + 1 + k)) ∧
  (start_line c ≤ end_line c < length lines →
     length new_lines + (end_line c - start_line c) = length lines) ∧
  (∀ (write_result : string → string → WriteResult) (w : World)
     (text raw : string),
     files w !! file_path c = Some text →
     lines = readlines text →
     content = ensure_newline raw →
     (write_result (file_path c) (writelines new_lines) = WriteOk →
        apply_resolution write_result c raw w =
        (Returned true,
         mkWorld (<[file_path c := writelines new_lines]> (files w))
           (io_log w ++
            [IoRead (file_path c);
             IoWrite (file_path c) (writelines new_lines)]))) ∧
     (fst (apply_resolution write_result c raw w) = Returned true →
        snd (apply_resolution write_result c raw w) =
        mkWorld (<[file_path c := writelines new_lines]> (files w))
          (io_log w ++
           [IoRead (file_path c);
            IoWrite (file_path c) (writelines new_lines)]))).
Proof.
  intros new_lines. subst new_lines.
  split; [unfold splice; by rewrite slice_0 |].
  split; [intros i line Hi Hline; by apply splice_lookup_before |].
  split.
  { intros Hs. split; [by apply splice_lookup_at |].
    intros k. by apply splice_lookup_after. }
  split; [intros [Hse He]; by apply splice_length |].
  intros write_result w text raw Htext -> ->.
  unfold apply_resolution. rewrite Htext. split.
  - by intros ->.
  - by destruct (write_result _ _).
Qed.

(** ** Files whose last region is not closed *)

Lemma forallb_lookup {A : Type} (f : A → bool) (l : list A) (k : nat) (x : A) :
  forallb f l = true → l !! k = Some x → f x = true.
Proof.
  revert k. induction l as [|y l IH]; intros k Hall Hk; [done |].
  simpl in Hall. apply andb_true_iff in Hall as [Hy Hl].
  destruct k as [|k]; simpl in Hk; [congruence | by eapply IH].
Qed.

Lemma block_at_end_le (path : string) (lines : list string) (i : nat) :
  i < length lines → end_line (block_at path lines i) ≤ length lines + 1.
Proof.
  intros Hi. rewrite block_at_eq. simpl.
  pose proof (leading_le "=======" (drop (i + 1) lines)) as H1.
  pose proof (leading_le ">>>>>>>"
    (drop (i + 2 + leading "=======" (drop (i + 1) lines)) lines)) as H2.
  rewrite length_drop in H1, H2. lia.
Qed.

(** The line at [end_line], when there is one, is a closing marker. *)
Lemma block_at_end_closing (path : string) (lines : list string) (i : nat)
    (line : string) :
  lines !! end_line (block_at path lines i) = Some line →
  startswith line ">>>>>>>" = true.
Proof.
  rewrite block_at_eq. simpl. intros Hline.
  apply (leading_stop ">>>>>>>"
    (drop (i + 2 + leading "=======" (drop (i + 1) lines)) lines)).
  by rewrite lookup_drop.
Qed.

Lemma scan_at_unterminated (path : string) (lines : list string) (s : nat) :
  unterminated_at lines s = true →
  ∀ (n i : nat) (conflicts : list Conflict),
    length lines - i ≤ n → i ≤ s →
    ∃ (rs : list Conflict) (r : Conflict),
      scan_at path lines i conflicts = conflicts ++ rs ++ [r] ∧
      start_line r ≤ s ∧
      length lines ≤ end_line r ≤ length lines + 1 ∧
      Forall (λ r', end_line r' < s) rs.
Proof.
  unfold unterminated_at. destruct (lines !! s) as [opening|] eqn:Hs; [|done].
  intros [Hopen Hrest]%andb_true_iff.
  pose proof (lookup_lt_Some _ _ _ Hs) as Hslt.
  induction n as [|n IH]; intros i conflicts Hn Hi; [lia |].
  destruct (lookup_lt_is_Some_2 lines i) as [line Hline]; [lia |].
  rewrite (scan_at_step _ _ _ _ _ Hline).
  destruct (startswith line "<<<<<<<") eqn:Hstart.
  - set (b := block_at path lines i).
    pose proof (block_at_end_gt path lines i) as Hgt. fold b in Hgt.
    pose proof (block_at_end_le path lines i ltac:(lia)) as Hle. fold b in Hle.
    pose proof (block_at_end_closing path lines i) as Hclose. fold b in Hclose.
    destruct (decide (end_line b < s)) as [Hlt|Hge].
    + destruct (IH (end_line b + 1) (conflicts ++ [b])) as (rs & r & -> & ? & ? & ?);
        [lia | lia |].
      exists (b :: rs), r. rewrite <-app_assoc. simpl.
      repeat split; [done | lia | lia | by constructor].
    + assert (length lines ≤ end_line b) as Hout.
      { destruct (decide (length lines ≤ end_line b)) as [|Hin]; [done |].
        destruct (lookup_lt_is_Some_2 lines (end_line b)) as [l Hl]; [lia |].
        pose proof (Hclose l Hl) as Hl'.
        destruct (decide (end_line b = s)) as [Heq|Hne].
        - rewrite Heq in Hl. assert (l = opening) as -> by congruence.
          rewrite (opening_not_closing _ Hopen) in Hl'. done.
        - assert (negb (startswith l ">>>>>>>") = true) as Hneg.
          { apply (forallb_lookup _ _ (end_line b - (s + 1)) _ Hrest).
            rewrite lookup_drop. rewrite <-Hl. f_equal. lia. }
          rewrite Hl' in Hneg. done. }
      exists [], b. rewrite scan_at_end by lia. simpl.
      repeat split; [| lia | lia | by constructor].
      unfold b. rewrite block_at_start. lia.
  - assert (i ≠ s) as Hne.
    { intros ->. assert (line = opening) as -> by congruence. congruence. }
    apply IH; lia.
Qed.

(** C2, counterexample.  A file that opens a region and passes the separator
    but never closes: the scanner returns the open region, and its
    [end_line] is the number of lines of the file. *)
Lemma unterminated_region_reaches_past_end :
  let lines :=
    [ "<<<<<<< HEAD" +:+ nl; "x" +:+ nl; "=======" +:+ nl; "y" +:+ nl ] in
  unterminated_at lines 0 = true ∧
  scan_lines "f.txt" lines =
    [ {| file_path := "f.txt"; start_line := 0; end_line := 4;
         current_content := "x" +:+ nl; incoming_content := "y" +:+ nl;
         context_before := EmptyString; context_after := EmptyString |} ] ∧
  ¬ (∀ r, r ∈ scan_lines "f.txt" lines → end_line r < length lines).
Proof.
  split; [reflexivity |]. split; [reflexivity |].
  intros H. specialize (H _ (list_elem_of_here _ _)). simpl in H. lia.
Qed.

(** C2, as the code has it.  The scanner has no error result.  When some
    opening marker is followed by no closing marker up to the end of the
    file, the scan still returns a list, whose last region is the open one:
    it starts at or before that marker and its [end_line] lies past the last
    line (the line count, or one more when the separator is missing too).
    The regions before it all end before the marker. *)
Theorem scan_unterminated (path : string) (lines : list string) (s : nat) :
  unterminated_at lines s = true →
  ∃ (rs : list Conflict) (r : Conflict),
    scan_lines path lines = rs ++ [r] ∧
    start_line r ≤ s ∧
    length lines ≤ end_line r ≤ length lines + 1 ∧
    Forall (λ r', end_line r' < s) rs.
Proof.
  intros H. rewrite scan_lines_at.
  destruct (scan_at_unterminated path lines s H (length lines) 0 [])
    as (rs & r & Heq & ?); [lia | lia |].
  exists rs, r. by rewrite Heq.
Qed.

Lemma scan_unterminated_witness :
  ∃ (rs : list Conflict) (r : Conflict),
    scan_lines "f.txt" ["<<<<<<< HEAD" +:+ nl; "x" +:+ nl] = rs ++ [r] ∧
    start_line r ≤ 0 ∧
    2 ≤ end_line r ≤ 2 + 1 ∧
    Forall (λ r', end_line r' < 0) rs.
Proof.
  apply (scan_unterminated "f.txt" ["<<<<<<< HEAD" +:+ nl; "x" +:+ nl] 0).
  reflexivity.
Defined.

(** ** Well-formed files *)

Lemma well_formed_block_inv (b : Block) :
  well_formed_block b = true →
  startswith (open_line b) "<<<<<<<" = true ∧
  no_prefix "=======" (local_lines b) = true ∧
  startswith (sep_line b) "=======" = true ∧
  no_prefix ">>>>>>>" (incoming_lines b) = true ∧
  startswith (close_line b) ">>>>>>>" = true.
Proof.
  unfold well_formed_block. rewrite !andb_true_iff. tauto.
Qed.

Lemma block_lines_length (b : Block) :
  length (block_lines b)
  = length (local_lines b) + length (incoming_lines b) + 3.
Proof.
  unfold block_lines. simpl. rewrite length_app. simpl. rewrite length_app.
  simpl. lia.
Qed.

Lemma no_prefix_cons (tok x : string) (xs : list string) :
  no_prefix tok (x :: xs) = true ↔
  startswith x tok = false ∧ no_prefix tok xs = true.
Proof.
  unfold no_prefix. cbn [forallb]. by rewrite andb_true_iff, negb_true_iff.
Qed.

(** Ordinary lines are passed one by one. *)
Lemma scan_at_plain (path : string) (plain pre rest : list string)
    (conflicts : list Conflict) :
  no_prefix "<<<<<<<" plain = true →
  scan_at path (pre ++ plain ++ rest) (length pre) conflicts
  = scan_at path (pre ++ plain ++ rest) (length pre + length plain) conflicts.
Proof.
  revert pre. induction plain as [|x plain IH]; intros pre Hplain.
  - simpl. by rewrite Nat.add_0_r.
  - apply no_prefix_cons in Hplain as [Hx Hplain].
    rewrite (scan_at_step _ _ _ _ x) by (by apply list_lookup_middle).
    rewrite Hx. specialize (IH (pre ++ [x]) Hplain).
    rewrite <-app_assoc, length_app in IH. simpl in IH.
    change ((x :: plain) ++ rest) with (x :: plain ++ rest).
    rewrite IH. cbn [length]. f_equal. lia.
Qed.

(** A region standing in a file after the lines [pre] is scanned into the
    dictionary that reproduces it. *)
Lemma block_at_in_file (path : string) (pre : list string) (b : Block)
    (rest : list string) :
  well_formed_block b = true →
  let lines := pre ++ block_lines b ++ rest in
  let r := block_at path lines (length pre) in
  start_line r = length pre ∧
  end_line r = length pre + length (local_lines b) + length (incoming_lines b) + 2 ∧
  reproduces lines r b.
Proof.
  intros (Hopen & Hlocal & Hsep & Hincoming & Hclose)%well_formed_block_inv lines r.
  assert (lines = pre ++ open_line b :: local_lines b ++ sep_line b ::
                  incoming_lines b ++ close_line b :: rest) as Hlines.
  { unfold lines, block_lines. simpl. do 2 f_equal.
    rewrite <-app_assoc. simpl. do 2 f_equal. by rewrite <-app_assoc. }
  assert (drop (length pre + 1) lines
          = local_lines b ++ sep_line b :: incoming_lines b ++ close_line b :: rest)
    as Hd1.
  { rewrite Hlines. by rewrite drop_app_add'. }
  assert (drop (length pre + 2 + length (local_lines b)) lines
          = incoming_lines b ++ close_line b :: rest) as Hd2.
  { replace (length pre + 2 + length (local_lines b))
      with (length pre + 1 + (length (local_lines b) + 1)) by lia.
    rewrite <-drop_drop, Hd1. rewrite drop_app_add' by done. done. }
  assert (leading "=======" (drop (length pre + 1) lines)
          = length (local_lines b)) as Hn1.
  { rewrite Hd1. by apply leading_no_prefix. }
  assert (leading ">>>>>>>" (drop (length pre + 2 + length (local_lines b)) lines)
          = length (incoming_lines b)) as Hn2.
  { rewrite Hd2. by apply leading_no_prefix. }
  assert (∀ k, lines !! (length pre + 1 + k)
               = (local_lines b ++ sep_line b :: incoming_lines b ++
                  close_line b :: rest) !! k) as Hl1.
  { intros k. by rewrite <-Hd1, lookup_drop. }
  assert (∀ k, lines !! (length pre + 2 + length (local_lines b) + k)
               = (incoming_lines b ++ close_line b :: rest) !! k) as Hl2.
  { intros k. by rewrite <-Hd2, lookup_drop. }
  unfold r. rewrite block_at_eq, Hn1, Hn2. unfold reproduces.
  cbn [start_line end_line current_content incoming_content].
  rewrite Hd1, Hd2, !take_app_length. unfold slice. repeat split.
  - lia.
  - rewrite Hlines. by apply list_lookup_middle.
  - replace (length pre + 1 + length (local_lines b) - (length pre + 1))
      with (length (local_lines b)) by lia.
    by rewrite Hd1, take_app_length.
  - rewrite Hl1. by apply list_lookup_middle.
  - replace (length pre + 2 + length (local_lines b) + length (incoming_lines b)
             - (length pre + 2 + length (local_lines b)))
      with (length (incoming_lines b)) by lia.
    by rewrite Hd2, take_app_length.
  - rewrite Hl2. by apply list_lookup_middle.
  - apply split_lines_join.
  - apply split_lines_join.
Qed.

Lemma bounds_cons (r : Conflict) (rs : list Conflict) :
  bounds (r :: rs) = start_line r :: end_line r :: bounds rs.
Proof. reflexivity. Qed.

Lemma bounds_starts (P : nat → Prop) (rs : list Conflict) :
  Forall P (bounds rs) → Forall P (start_line <$> rs).
Proof.
  induction rs as [|r rs IH]; [done |]. rewrite bounds_cons, fmap_cons.
  intros [? [? ?]%Forall_cons]%Forall_cons. constructor; auto.
Qed.

Lemma bounds_sorted_starts (rs : list Conflict) :
  StronglySorted lt (bounds rs) → StronglySorted lt (start_line <$> rs).
Proof.
  induction rs as [|r rs IH]; [constructor |]. rewrite bounds_cons, fmap_cons.
  intros Hsorted. apply StronglySorted_inv in Hsorted as [Hrest Hs].
  apply StronglySorted_inv in Hrest as [Hrest He].
  apply Forall_cons in Hs as [_ Hs].
  constructor; [by apply IH | by apply bounds_starts].
Qed.

(** The scan of the regions [segs] that follow the lines [pre]. *)
Lemma scan_at_segments (path : string) (segs : list (list string * Block)) :
  ∀ (pre tail : list string) (conflicts : list Conflict),
    forallb (λ seg, no_prefix "<<<<<<<" (fst seg) && well_formed_block (snd seg))
      segs = true →
    no_prefix "<<<<<<<" tail = true →
    ∃ rs : list Conflict,
      scan_at path (pre ++ render_segments segs ++ tail) (length pre) conflicts
        = conflicts ++ rs ∧
      Forall2 (reproduces (pre ++ render_segments segs ++ tail)) rs (snd <$> segs) ∧
      StronglySorted lt (bounds rs) ∧
      Forall (λ k, length pre ≤ k) (bounds rs).
Proof.
  induction segs as [|[plain b] segs IH]; intros pre tail conflicts Hsegs Htail.
  - exists []. cbn [render_segments app]. rewrite app_nil_r.
    pose proof (scan_at_plain path tail pre [] conflicts Htail) as Hplain.
    rewrite app_nil_r in Hplain. rewrite Hplain.
    rewrite scan_at_end by (rewrite length_app; lia).
    repeat split; constructor.
  - cbn [forallb fst snd] in Hsegs.
    apply andb_true_iff in Hsegs as [[Hplain Hb]%andb_true_iff Hsegs].
    cbn [render_segments].
    set (lines := pre ++ (plain ++ block_lines b ++ render_segments segs) ++ tail).
    set (pre1 := pre ++ plain).
    set (pre2 := pre1 ++ block_lines b).
    assert (lines = pre ++ plain ++ block_lines b ++ render_segments segs ++ tail)
      as Hlines0 by (unfold lines; by rewrite <-!app_assoc).
    assert (lines = pre1 ++ block_lines b ++ render_segments segs ++ tail)
      as Hlines1 by (unfold pre1; by rewrite Hlines0, <-!app_assoc).
    assert (lines = pre2 ++ render_segments segs ++ tail)
      as Hlines2 by (unfold pre2; by rewrite Hlines1, <-!app_assoc).
    destruct (block_at_in_file path pre1 b (render_segments segs ++ tail) Hb)
      as (Hstart & Hend & Hrep).
    rewrite <-Hlines1 in Hstart, Hend, Hrep.
    set (r := block_at path lines (length pre1)) in *.
    assert (length pre1 = length pre + length plain) as Hpre1
      by (unfold pre1; by rewrite length_app).
    assert (length pre2 = end_line r + 1) as Hpre2.
    { unfold pre2. rewrite length_app, block_lines_length. lia. }
    destruct (IH pre2 tail (conflicts ++ [r]) Hsegs Htail)
      as (rs & Hscan & Hall & Hsorted & Hlow).
    rewrite <-Hlines2 in Hscan, Hall.
    exists (r :: rs). repeat split.
    + rewrite Hlines0, scan_at_plain, <-Hlines0, <-Hpre1 by done.
      rewrite (scan_at_step _ _ _ _ (open_line b))
        by (rewrite <-Hstart; apply Hrep).
      apply well_formed_block_inv in Hb as [-> _].
      fold r. rewrite <-Hpre2, Hscan. by rewrite <-app_assoc.
    + rewrite fmap_cons. by constructor.
    + rewrite bounds_cons. constructor; [constructor |].
      * done.
      * eapply Forall_impl; [exact Hlow |]. simpl. lia.
      * constructor; [lia |].
        eapply Forall_impl; [exact Hlow |]. simpl. lia.
    + rewrite bounds_cons. constructor; [lia |]. constructor; [lia |].
      eapply Forall_impl; [exact Hlow |]. simpl. lia.
Qed.

(** C4. For every well-formed text with N regions the scanner returns
    exactly N regions, in ascending order of [start_line] (each region also
    ends before the next one starts), and each returned region reproduces
    the region of the text in the same position: [start_line] is the index
    of its opening marker, [end_line] that of its closing marker, and the
    local (incoming) content is the lines strictly between opening marker
    and separator (separator and closing marker); the source keeps them
    joined into one string, from which lines that end in their line feed
    are read back one by one. *)
Theorem scan_well_formed (path : string) (doc : Document) :
  well_formed doc = true →
  let lines := render doc in
  let rs := scan_lines path lines in
  length rs = length (blocks doc) ∧
  StronglySorted lt (start_line <$> rs) ∧
  StronglySorted lt (bounds rs) ∧
  Forall2 (reproduces lines) rs (blocks doc).
Proof.
  intros Hwf lines rs. unfold well_formed in Hwf.
  apply andb_true_iff in Hwf as [Hsegs Htail].
  destruct (scan_at_segments path (segments doc) [] (trailer doc) [] Hsegs Htail)
    as (rs' & Hscan & Hall & Hsorted & _).
  cbn [app length] in Hscan, Hall.
  assert (rs = rs') as ->.
  { unfold rs, lines, render. by rewrite scan_lines_at, Hscan. }
  repeat split.
  - by apply Forall2_length in Hall.
  - by apply bounds_sorted_starts.
  - done.
  - done.
Qed.

Lemma scan_well_formed_witness :
  let doc :=
    {| segments :=
         [ (["a" +:+ nl],
            mkBlock ("<<<<<<< HEAD" +:+ nl) ["x" +:+ nl] ("=======" +:+ nl)
              ["y" +:+ nl] (">>>>>>> feature" +:+ nl));
           ([],
            mkBlock ("<<<<<<< HEAD" +:+ nl) [] ("=======" +:+ nl)
              ["u" +:+ nl; "v" +:+ nl] (">>>>>>> other" +:+ nl)) ];
       trailer := ["b" +:+ nl] |} in
  let rs := scan_lines "f.txt" (render doc) in
  length rs = 2 ∧
  StronglySorted lt (start_line <$> rs) ∧
  StronglySorted lt (bounds rs) ∧
  Forall2 (reproduces (render doc)) rs (blocks doc).
Proof.
  intros doc. apply (scan_well_formed "f.txt" doc). reflexivity.
Defined.

(** ** What the patcher writes *)

Lemma select_content_accept (choice merged current incoming : string) :
  choice ≠ "Keep YOUR version" → choice ≠ "Keep THEIR version" →
  select_content choice merged current incoming = merged.
Proof.
  intros H1%String.eqb_neq H2%String.eqb_neq. unfold select_content.
  by rewrite H1, H2.
Qed.

Lemma ensure_newline_truthy (content : string) :
  truthy (ensure_newline content) = truthy content.
Proof.
  unfold ensure_newline. destruct content as [|c content]; [done |].
  by destruct (truthy (String c content) && negb (endswith (String c content) nl)).
Qed.

Lemma ensure_newline_missing (content : string) :
  truthy content = true → (¬ ∃ front, content = front +:+ nl) →
  ensure_newline content = content +:+ nl.
Proof.
  intros Ht Hno. unfold ensure_newline. rewrite Ht.
  destruct (endswith content nl) eqn:He; [|done].
  apply endswith_app in He. contradiction.
Qed.

Lemma ensure_newline_present (content : string) :
  (∃ front, content = front +:+ nl) → ensure_newline content = content.
Proof.
  intros He%endswith_app. unfold ensure_newline. rewrite He.
  by rewrite andb_false_r.
Qed.

Lemma ensure_newline_ends (content : string) :
  truthy content = true → endswith (ensure_newline content) nl = true.
Proof.
  intros Ht. unfold ensure_newline. rewrite Ht.
  destruct (endswith content nl) eqn:He; simpl; [done |].
  apply endswith_app. by exists content.
Qed.

(** C7, as the code has it.  The patcher does not look at the terminators of
    the file.  A replacement text that is non-empty and does not end with a
    line feed gets one line feed ['\n'] appended before the splice, whatever
    the text of the file, so every non-empty replacement ends with a line
    feed; a replacement that already ends with a line feed, or is empty, is
    left unchanged.  Two files with the same lines and different line ends
    get the same text written (when the file system takes the write; the
    call ends the same way for both). *)
Theorem ensure_newline_appends_line_feed (c : Conflict) (content : string) :
  (truthy content = true → (¬ ∃ front, content = front +:+ nl) →
   ensure_newline content = content +:+ nl) ∧
  ((∃ front, content = front +:+ nl) → ensure_newline content = content) ∧
  ensure_newline EmptyString = EmptyString ∧
  (truthy content = true → endswith (ensure_newline content) nl = true) ∧
  (∀ (write_result : string → string → WriteResult) (w : World)
     (text : string),
     files w !! file_path c = Some text →
     fst (apply_resolution write_result c content w) = Returned true →
     files (snd (apply_resolution write_result c content w)) !! file_path c =
     Some (writelines
             (splice (readlines text) (start_line c) (end_line c)
                (ensure_newline content)))) ∧
  (∀ (write_result : string → string → WriteResult) (w : World)
     (text : string),
     files w !! file_path c = Some text →
     write_result (file_path c)
       (writelines
          (splice (readlines text) (start_line c) (end_line c)
             (ensure_newline content))) = WriteOk →
     fst (apply_resolution write_result c content w) = Returned true) ∧
  (∀ (write_result : string → string → WriteResult) (w1 w2 : World)
     (text1 text2 : string),
     files w1 !! file_path c = Some text1 →
     files w2 !! file_path c = Some text2 →
     universal_newlines text1 = universal_newlines text2 →
     fst (apply_resolution write_result c content w1) =
     fst (apply_resolution write_result c content w2) ∧
     (fst (apply_resolution write_result c content w1) = Returned true →
      files (snd (apply_resolution write_result c content w1)) !! file_path c =
      files (snd (apply_resolution write_result c content w2)) !! file_path c)).
Proof.
  split; [apply ensure_newline_missing |].
  split; [apply ensure_newline_present |].
  split; [reflexivity |].
  split; [apply ensure_newline_ends |].
  assert (∀ (write_result : string → string → WriteResult) (w : World)
     (text : string),
     files w !! file_path c = Some text →
     fst (apply_resolution write_result c content w) = Returned true →
     files (snd (apply_resolution write_result c content w)) !! file_path c =
     Some (writelines
             (splice (readlines text) (start_line c) (end_line c)
                (ensure_newline content)))) as Hwrite.
  { intros write_result w text Htext. unfold apply_resolution. rewrite Htext.
    destruct (write_result _ _); cbn [fst snd files]; [| done | done].
    intros _. apply lookup_insert_eq. }
  split; [exact Hwrite |].
  split.
  { intros write_result w text Htext Hw. unfold apply_resolution.
    by rewrite Htext, Hw. }
  intros write_result w1 w2 text1 text2 H1 H2 Heq.
  assert (fst (apply_resolution write_result c content w1) =
          fst (apply_resolution write_result c content w2)) as Hfst.
  { unfold apply_resolution. rewrite H1, H2. unfold readlines. rewrite Heq.
    by destruct (write_result _ _). }
  split; [exact Hfst |].
  intros Htrue.
  rewrite (Hwrite write_result w1 text1 H1 Htrue).
  rewrite Hfst in Htrue.
  rewrite (Hwrite write_result w2 text2 H2 Htrue).
  unfold readlines. by rewrite Heq.
Qed.

(** ** The outcomes of [resolve_conflict] *)

Section ResolveConflict.

Variable rich_renders : Conflict → Resolution → bool.
Variable write_result : string → string → WriteResult.

Lemma resolve_conflict_rejected (c : Conflict) (r : Resolution) (ans : Answer)
    (w : World) :
  merged_content r = None ∨ merged_content r = Some EmptyString →
  resolve_conflict rich_renders write_result c r ans w = (Returned false, w).
Proof. unfold resolve_conflict. by intros [-> | ->]. Qed.

Lemma chosen_content_merged (ans : Answer) (merged current incoming : string) :
  ans ≠ Chose "Keep YOUR version" → ans ≠ Chose "Keep THEIR version" →
  chosen_content ans merged current incoming = merged.
Proof.
  intros Hy Ht. destruct ans as [choice| |]; [|done|done]. cbn [chosen_content].
  apply select_content_accept; congruence.
Qed.

(** The file is read and written back when the write goes through. *)
Lemma apply_resolution_written (c : Conflict) (content text : string)
    (w : World) :
  files w !! file_path c = Some text →
  let new_text :=
    writelines
      (splice (readlines text) (start_line c) (end_line c)
         (ensure_newline content)) in
  write_result (file_path c) new_text = WriteOk →
  apply_resolution write_result c content w =
  (Returned true,
   mkWorld (<[file_path c := new_text]> (files w))
           (io_log w ++ [IoRead (file_path c); IoWrite (file_path c) new_text])).
Proof.
  intros Htext new_text Hw. unfold apply_resolution. rewrite Htext.
  fold new_text. by rewrite Hw.
Qed.

Lemma apply_resolution_true_inv (c : Conflict) (content : string)
    (w w' : World) :
  apply_resolution write_result c content w = (Returned true, w') →
  ∃ text,
    files w !! file_path c = Some text ∧
    let new_text :=
      writelines
        (splice (readlines text) (start_line c) (end_line c)
           (ensure_newline content)) in
    write_result (file_path c) new_text = WriteOk ∧
    w' = mkWorld (<[file_path c := new_text]> (files w))
           (io_log w ++ [IoRead (file_path c); IoWrite (file_path c) new_text]).
Proof.
  unfold apply_resolution.
  destruct (files w !! file_path c) as [text|] eqn:Ht; [|done].
  destruct (write_result _ _) eqn:Hw; [|done|done].
  intros [= <-]. by exists text.
Qed.

(** The answers that send [resolve_conflict] to the file. *)
Lemma resolve_conflict_applies (c : Conflict) (r : Resolution) (ans : Answer)
    (merged : string) (w : World) :
  merged_content r = Some merged →
  truthy merged = true →
  menu_shown rich_renders c r = true →
  ans ≠ KeyboardInterrupt →
  ans ≠ Chose "Cancel" →
  ans ≠ Chose "Skip for now" →
  resolve_conflict rich_renders write_result c r ans w =
  apply_resolution write_result c
    (chosen_content ans merged (current_content c) (incoming_content c)) w.
Proof.
  intros Hmerged Htruthy Hshown Hk Hc Hs. unfold resolve_conflict.
  rewrite Hmerged, Htruthy, Hshown. cbn [negb].
  destruct ans as [choice| |]; [|done|done]. cbn [chosen_content].
  destruct (String.eqb choice "Cancel") eqn:Ec.
  { apply String.eqb_eq in Ec. by subst. }
  destruct (String.eqb choice "Skip for now") eqn:Es.
  { apply String.eqb_eq in Es. by subst. }
  done.
Qed.

(** The one path of [resolve_conflict] that touches the file, for a label
    of the menu. *)
Lemma resolve_conflict_applied (c : Conflict) (r : Resolution)
    (merged choice text : string) (w : World) :
  merged_content r = Some merged →
  truthy merged = true →
  menu_shown rich_renders c r = true →
  String.eqb choice "Cancel" = false →
  String.eqb choice "Skip for now" = false →
  files w !! file_path c = Some text →
  let content :=
    ensure_newline
      (select_content choice merged (current_content c) (incoming_content c)) in
  let new_text :=
    writelines (splice (readlines text) (start_line c) (end_line c) content) in
  write_result (file_path c) new_text = WriteOk →
  resolve_conflict rich_renders write_result c r (Chose choice) w =
  (Returned true,
   mkWorld (<[file_path c := new_text]> (files w))
           (io_log w ++ [IoRead (file_path c); IoWrite (file_path c) new_text])).
Proof.
  intros Hmerged Htruthy Hshown Hcancel Hskip Htext content new_text Hw.
  unfold resolve_conflict.
  rewrite Hmerged, Htruthy, Hshown, Hcancel, Hskip. simpl.
  by apply apply_resolution_written.
Qed.

(** A call that returns [True] went through the whole function. *)
Lemma resolve_conflict_true_inv (c : Conflict) (r : Resolution) (ans : Answer)
    (w w' : World) :
  resolve_conflict rich_renders write_result c r ans w = (Returned true, w') →
  ∃ merged text,
    merged_content r = Some merged ∧
    truthy merged = true ∧
    menu_shown rich_renders c r = true ∧
    ans ≠ KeyboardInterrupt ∧
    ans ≠ Chose "Cancel" ∧
    ans ≠ Chose "Skip for now" ∧
    files w !! file_path c = Some text ∧
    let new_text :=
      writelines
        (splice (readlines text) (start_line c) (end_line c)
           (ensure_newline
              (chosen_content ans merged (current_content c)
                 (incoming_content c)))) in
    write_result (file_path c) new_text = WriteOk ∧
    w' = mkWorld (<[file_path c := new_text]> (files w))
           (io_log w ++ [IoRead (file_path c); IoWrite (file_path c) new_text]).
Proof.
  unfold resolve_conflict.
  destruct (merged_content r) as [merged|]; [|done].
  destruct (truthy merged) eqn:Hm; [|done]. simpl.
  destruct (menu_shown rich_renders c r) eqn:Hshown; [|done]. simpl.
  destruct ans as [choice| |]; [| |done].
  - destruct (String.eqb choice "Cancel") eqn:Hc; [done |].
    destruct (String.eqb choice "Skip for now") eqn:Hs; [done |].
    intros (text & Htext & Hw & ->)%apply_resolution_true_inv.
    exists merged, text. repeat split; try done.
    + intros [= ->]. done.
    + intros [= ->]. done.
  - intros (text & Htext & Hw & ->)%apply_resolution_true_inv.
    exists merged, text. repeat split; done.
Qed.

(** C5, as the code has it.  The menu has no entry that keeps both sides and
    the patcher never builds the replacement from the two sides.  For every
    region and every resolution tagged [keep_both], accepting the suggestion
    replaces lines [start_line .. end_line] by the [merged_content] carried
    by the resolution (with a line feed added when it lacks one), so the
    three marker lines of the region are gone: that is what the call writes
    when the file system takes the write, and the only text with which it
    returns [True]; the result is the local side followed by the incoming
    side when that is the text the resolution carries. *)
Theorem keep_both_applies_merged_content (c : Conflict) (r : Resolution)
    (merged text : string) (w : World) :
  suggestion r = Some "keep_both" →
  merged_content r = Some merged →
  truthy merged = true →
  rich_renders c r = true →
  files w !! file_path c = Some text →
  let new_text content :=
    writelines (splice (readlines text) (start_line c) (end_line c) content) in
  let run :=
    resolve_conflict rich_renders write_result c r
      (Chose "Accept AI suggestion") w in
  (write_result (file_path c) (new_text (ensure_newline merged)) = WriteOk →
   run =
     (Returned true,
      mkWorld (<[file_path c := new_text (ensure_newline merged)]> (files w))
        (io_log w ++
         [IoRead (file_path c);
          IoWrite (file_path c) (new_text (ensure_newline merged))]))) ∧
  (fst run = Returned true →
   run =
     (Returned true,
      mkWorld (<[file_path c := new_text (ensure_newline merged)]> (files w))
        (io_log w ++
         [IoRead (file_path c);
          IoWrite (file_path c) (new_text (ensure_newline merged))]))) ∧
  (merged = current_content c +:+ incoming_content c →
   fst run = Returned true →
   files (snd run) !! file_path c
   = Some (new_text (ensure_newline (current_content c +:+ incoming_content c)))).
Proof.
  intros Htag Hmerged Htruthy Hrenders Htext new_text run.
  assert (menu_shown rich_renders c r = true) as Hshown
    by (unfold menu_shown; by rewrite Htag).
  assert (fst run = Returned true →
          run =
          (Returned true,
           mkWorld (<[file_path c := new_text (ensure_newline merged)]> (files w))
             (io_log w ++
              [IoRead (file_path c);
               IoWrite (file_path c) (new_text (ensure_newline merged))])))
    as Htrue.
  { intros Hfst. destruct run as [o w'] eqn:Hrun. cbn [fst] in Hfst. subst o.
    destruct (resolve_conflict_true_inv _ _ _ _ _ Hrun)
      as (m & t & Hm & _ & _ & _ & _ & _ & Ht & Hw & ->).
    assert (m = merged) as -> by congruence.
    assert (t = text) as -> by congruence.
    reflexivity. }
  split; [| split].
  - intros Hw. subst run.
    pose proof (resolve_conflict_applied c r merged "Accept AI suggestion" text w
                  Hmerged Htruthy Hshown eq_refl eq_refl Htext) as Happly.
    cbv zeta in Happly. rewrite select_content_accept in Happly by done.
    by apply Happly.
  - exact Htrue.
  - intros <- Hfst. rewrite (Htrue Hfst). cbn [snd files]. apply lookup_insert_eq.
Qed.

(** C6, as the code has it.  Only the [merged_content] of the resolution is
    checked.  When it is empty or missing the call returns [False] with the
    world untouched, whatever the outcome of the menu would be.  When a call
    writes, the replacement is: for "Keep YOUR version" the local side, for
    "Keep THEIR version" the incoming side, otherwise (any other label, or
    no label at all) the merged text, each normalised; the merged text is
    then non-empty, while a kept side is written as it is, non-empty exactly
    when that side of the region is. *)
Theorem empty_merged_content_rejected (c : Conflict) (r : Resolution)
    (ans : Answer) (w : World) :
  (merged_content r = None ∨ merged_content r = Some EmptyString →
   resolve_conflict rich_renders write_result c r ans w = (Returned false, w)) ∧
  (∀ w', resolve_conflict rich_renders write_result c r ans w
         = (Returned true, w') →
     ∃ merged text content,
       merged_content r = Some merged ∧
       truthy merged = true ∧
       files w !! file_path c = Some text ∧
       files w' =
         <[file_path c :=
             writelines
               (splice (readlines text) (start_line c) (end_line c) content)]>
           (files w) ∧
       (ans = Chose "Keep YOUR version" →
          content = ensure_newline (current_content c) ∧
          truthy content = truthy (current_content c)) ∧
       (ans = Chose "Keep THEIR version" →
          content = ensure_newline (incoming_content c) ∧
          truthy content = truthy (incoming_content c)) ∧
       (ans ≠ Chose "Keep YOUR version" → ans ≠ Chose "Keep THEIR version" →
          content = ensure_newline merged ∧ truthy content = true)).
Proof.
  split; [apply resolve_conflict_rejected |].
  intros w' Hrun.
  destruct (resolve_conflict_true_inv _ _ _ _ _ Hrun)
    as (merged & text & Hmerged & Htruthy & Hshown & Hk & Hc & Hs & Htext
        & Hw & ->).
  exists merged, text,
    (ensure_newline
       (chosen_content ans merged (current_content c) (incoming_content c))).
  repeat split; try done.
  - by subst ans.
  - subst ans. apply ensure_newline_truthy.
  - by subst ans.
  - subst ans. apply ensure_newline_truthy.
  - by rewrite chosen_content_merged.
  - rewrite chosen_content_merged by done. by rewrite ensure_newline_truthy.
Qed.

(** C9. Two resolutions with the same [merged_content] may differ in
    [suggestion], [confidence], [explanation] and [reasoning]: when the menu
    is shown for both, the two calls end the same way and leave the same
    world, for every outcome of the menu; and whenever both calls write,
    they write the same file.  What is written is the file's lines with the
    region replaced by the text of [chosen_content]: the region's own local
    or incoming side for "Keep YOUR version" and "Keep THEIR version", the
    merged text for "Accept AI suggestion" and for every other outcome that
    reaches the file. *)
Theorem written_content_ignores_suggestion (c : Conflict) (r1 r2 : Resolution)
    (ans : Answer) (w : World) :
  merged_content r1 = merged_content r2 →
  (menu_shown rich_renders c r1 = true → menu_shown rich_renders c r2 = true →
   resolve_conflict rich_renders write_result c r1 ans w
   = resolve_conflict rich_renders write_result c r2 ans w) ∧
  (∀ w1 w2,
     resolve_conflict rich_renders write_result c r1 ans w = (Returned true, w1) →
     resolve_conflict rich_renders write_result c r2 ans w = (Returned true, w2) →
     w1 = w2) ∧
  (∀ w1,
     resolve_conflict rich_renders write_result c r1 ans w = (Returned true, w1) →
     ∃ merged text,
       merged_content r1 = Some merged ∧
       files w !! file_path c = Some text ∧
       files w1 !! file_path c =
       Some (writelines
               (splice (readlines text) (start_line c) (end_line c)
                  (ensure_newline
                     (chosen_content ans merged (current_content c)
                        (incoming_content c))))) ∧
       chosen_content (Chose "Accept AI suggestion") merged
         (current_content c) (incoming_content c) = merged ∧
       chosen_content (Chose "Keep YOUR version") merged
         (current_content c) (incoming_content c) = current_content c ∧
       chosen_content (Chose "Keep THEIR version") merged
         (current_content c) (incoming_content c) = incoming_content c).
Proof.
  intros Hsame. split; [| split].
  - intros H1 H2. unfold resolve_conflict. by rewrite Hsame, H1, H2.
  - intros w1 w2 Hrun1 Hrun2.
    destruct (resolve_conflict_true_inv _ _ _ _ _ Hrun1)
      as (m1 & text & Hm1 & _ & _ & _ & _ & _ & Htext & _ & ->).
    destruct (resolve_conflict_true_inv _ _ _ _ _ Hrun2)
      as (m2 & text' & Hm2 & _ & _ & _ & _ & _ & Htext' & _ & ->).
    assert (m2 = m1) as -> by congruence.
    assert (text' = text) as -> by congruence.
    reflexivity.
  - intros w1 Hrun.
    destruct (resolve_conflict_true_inv _ _ _ _ _ Hrun)
      as (merged & text & Hm & _ & _ & _ & _ & _ & Htext & _ & ->).
    exists merged, text.
    repeat split; try done. cbn [files]. apply lookup_insert_eq.
Qed.

(** C10. When the [merged_content] of the resolution is empty or missing,
    or when the menu is shown and the user picks "Cancel" or "Skip for now",
    [resolve_conflict] returns [False] and the world is the one it started
    from: the same files with the same text, and no read or write added to
    the log. *)
Theorem no_io_when_rejected_or_declined (c : Conflict) (r : Resolution)
    (ans : Answer) (w : World) :
  merged_content r = None ∨
  merged_content r = Some EmptyString ∨
  (menu_shown rich_renders c r = true ∧
   (ans = Chose "Cancel" ∨ ans = Chose "Skip for now")) →
  resolve_conflict rich_renders write_result c r ans w = (Returned false, w).
Proof.
  intros [H | [H | [Hshown Hans]]].
  - apply resolve_conflict_rejected. by left.
  - apply resolve_conflict_rejected. by right.
  - unfold resolve_conflict. rewrite Hshown.
    destruct (merged_content r) as [merged|]; [|done].
    destruct (truthy merged); [|done]. simpl.
    by destruct Hans as [-> | ->].
Qed.

End ResolveConflict.

(** ** Scenarios *)

(** C1. On the seven lines of the specification's scenario the scanner
    returns exactly one region: start line 1, end line 5, local content
    ["x\n"], incoming content ["y\n"], context ["a\n"] before and ["b\n"]
    after (the source keeps each of the four joined into one string, from
    which the lines are read back).  Keeping the incoming side of that
    region rewrites the file to the lines ["a\n"; "y\n"; "b\n"]: that is
    the list the splice builds, and the text in the file after the call on
    a console that prints everything and a file system that takes the
    write. *)
Theorem scenario_scan_then_keep_incoming (path tag : string) (c : ascii)
    (merged : string) (expl conf reas : option string) :
  scan_lines path scenario_lines = [scenario_region path] ∧
  parse_conflict_file (world_with path (writelines scenario_lines)) path
    = [scenario_region path] ∧
  split_lines EmptyString (current_content (scenario_region path))
    = ["x" +:+ nl] ∧
  split_lines EmptyString (incoming_content (scenario_region path))
    = ["y" +:+ nl] ∧
  split_lines EmptyString (context_before (scenario_region path))
    = ["a" +:+ nl] ∧
  split_lines EmptyString (context_after (scenario_region path))
    = ["b" +:+ nl] ∧
  splice scenario_lines 1 5
    (ensure_newline
       (select_content "Keep THEIR version" (String c merged)
          (current_content (scenario_region path))
          (incoming_content (scenario_region path))))
  = ["a" +:+ nl; "y" +:+ nl; "b" +:+ nl] ∧
  resolve_conflict prints_all always_written (scenario_region path)
    (mkResolution (Some tag) (Some (String c merged)) expl conf reas)
    (Chose "Keep THEIR version")
    (world_with path (writelines scenario_lines))
  = (Returned true,
     mkWorld {[ path := writelines ["a" +:+ nl; "y" +:+ nl; "b" +:+ nl] ]}
       [IoRead path;
        IoWrite path (writelines ["a" +:+ nl; "y" +:+ nl; "b" +:+ nl])]) ∧
  readlines (writelines ["a" +:+ nl; "y" +:+ nl; "b" +:+ nl])
    = ["a" +:+ nl; "y" +:+ nl; "b" +:+ nl].
Proof.
  split; [reflexivity |]. split.
  { unfold parse_conflict_file, world_with. cbn [files].
    rewrite lookup_singleton_eq. reflexivity. }
  do 5 (split; [reflexivity |]). split; [| reflexivity].
  rewrite (resolve_conflict_applied prints_all always_written _ _ (String c merged)
             "Keep THEIR version" (writelines scenario_lines));
    try reflexivity.
  - unfold world_with. cbn [files io_log file_path scenario_region].
    rewrite insert_singleton_eq. reflexivity.
  - unfold world_with. cbn [files file_path scenario_region].
    apply lookup_singleton_eq.
Qed.

(** C5, counterexample.  The region of the scenario has the non-empty sides
    ["x\n"] and ["y\n"].  A resolution tagged [keep_both] that carries the
    merged text ["z\n"] is accepted: the file receives ["z\n"], not the
    local side followed by the incoming side. *)
Lemma keep_both_writes_merged_content :
  let c := scenario_region "f.txt" in
  let r := shown_resolution "keep_both" ("z" +:+ nl) in
  let w := world_with "f.txt" (writelines scenario_lines) in
  let run := resolve_conflict prints_all always_written
      c r (Chose "Accept AI suggestion") w in
  scan_lines "f.txt" scenario_lines = [c] ∧
  truthy (current_content c) = true ∧
  truthy (incoming_content c) = true ∧
  fst run = Returned true ∧
  files (snd run) !! "f.txt"
    = Some (writelines ["a" +:+ nl; "z" +:+ nl; "b" +:+ nl]) ∧
  writelines ["a" +:+ nl; "z" +:+ nl; "b" +:+ nl]
    ≠ writelines
        (splice scenario_lines (start_line c) (end_line c)
           (current_content c +:+ incoming_content c)).
Proof.
  intros c r w run. do 3 (split; [reflexivity |]).
  assert (run
          = (Returned true,
             mkWorld
               (<["f.txt" := writelines ["a" +:+ nl; "z" +:+ nl; "b" +:+ nl]]>
                  (files w))
               [IoRead "f.txt";
                IoWrite "f.txt" (writelines ["a" +:+ nl; "z" +:+ nl; "b" +:+ nl])]))
    as ->.
  { by apply (resolve_conflict_applied prints_all always_written c r ("z" +:+ nl)
                "Accept AI suggestion" (writelines scenario_lines) w). }
  split; [reflexivity |]. split; [apply lookup_insert_eq |].
  intros H. discriminate H.
Qed.

Lemma keep_both_applies_merged_content_witness :
  resolve_conflict prints_all always_written (scenario_region "f.txt")
    (shown_resolution "keep_both" ("x" +:+ nl +:+ "y" +:+ nl))
    (Chose "Accept AI suggestion")
    (world_with "f.txt" (writelines scenario_lines))
  = (Returned true,
     mkWorld
       (<["f.txt" :=
           writelines
             (splice (readlines (writelines scenario_lines)) 1 5
                (ensure_newline ("x" +:+ nl +:+ "y" +:+ nl)))]>
          {[ "f.txt" := writelines scenario_lines ]})
       [IoRead "f.txt";
        IoWrite "f.txt"
          (writelines
             (splice (readlines (writelines scenario_lines)) 1 5
                (ensure_newline ("x" +:+ nl +:+ "y" +:+ nl))))]).
Proof.
  apply (keep_both_applies_merged_content prints_all always_written
           (scenario_region "f.txt")
           (shown_resolution "keep_both" ("x" +:+ nl +:+ "y" +:+ nl))
           ("x" +:+ nl +:+ "y" +:+ nl) (writelines scenario_lines)
           (world_with "f.txt" (writelines scenario_lines)));
    [reflexivity | reflexivity | reflexivity | reflexivity
    | apply lookup_singleton_eq | reflexivity].
Defined.

(** C6, counterexample.  The local side of the region is empty.  The
    resolution carries a non-empty merged text, so it passes the check; the
    user keeps the local side; the replacement is the empty text and it is
    written: the call returns [True] and the file is left empty. *)
Lemma keep_local_writes_empty_replacement :
  let c := one_sided_region "f.txt" in
  let r := shown_resolution "keep_incoming" ("y" +:+ nl) in
  let w := world_with "f.txt" (writelines one_sided_lines) in
  scan_lines "f.txt" one_sided_lines = [c] ∧
  ensure_newline
    (select_content "Keep YOUR version" ("y" +:+ nl) (current_content c)
       (incoming_content c)) = EmptyString ∧
  resolve_conflict prints_all always_written c r (Chose "Keep YOUR version") w =
    (Returned true,
     mkWorld (<["f.txt" := EmptyString]> (files w))
       [IoRead "f.txt"; IoWrite "f.txt" EmptyString]).
Proof.
  intros c r w. do 2 (split; [reflexivity |]).
  by apply (resolve_conflict_applied prints_all always_written c r ("y" +:+ nl)
              "Keep YOUR version" (writelines one_sided_lines) w).
Qed.

(** C7, counterexample.  Every line of the file on disk ends in ['\r\n'],
    so that is its dominant terminator.  The merged text ["z"] has no
    terminator; the patcher appends ['\n'], not ['\r\n'], and the file it
    writes has line feeds only. *)
Lemma crlf_file_gets_line_feed :
  let c := scenario_region "f.txt" in
  let r := shown_resolution "custom" "z" in
  let w := world_with "f.txt" crlf_scenario_text in
  dominant_terminator crlf_scenario_text = crlf ∧
  parse_conflict_file w "f.txt" = [c] ∧
  truthy "z" = true ∧ endswith "z" nl = false ∧ endswith "z" crlf = false ∧
  ensure_newline "z" = "z" +:+ nl ∧
  ensure_newline "z" ≠ "z" +:+ dominant_terminator crlf_scenario_text ∧
  resolve_conflict prints_all always_written c r (Chose "Accept AI suggestion") w =
    (Returned true,
     mkWorld
       (<["f.txt" := writelines ["a" +:+ nl; "z" +:+ nl; "b" +:+ nl]]> (files w))
       [IoRead "f.txt";
        IoWrite "f.txt" (writelines ["a" +:+ nl; "z" +:+ nl; "b" +:+ nl])]).
Proof.
  intros c r w. split; [reflexivity |]. split.
  { unfold parse_conflict_file, w, world_with. cbn [files].
    rewrite lookup_singleton_eq. reflexivity. }
  do 4 (split; [reflexivity |]). split; [discriminate |].
  by apply (resolve_conflict_applied prints_all always_written
      c r "z" "Accept AI suggestion"
              crlf_scenario_text w).
Qed.

Lemma written_content_ignores_suggestion_witness :
  resolve_conflict prints_all always_written (scenario_region "f.txt")
    (shown_resolution "keep_current" "z") (Chose "Accept AI suggestion")
    (world_with "f.txt" (writelines scenario_lines))
  = resolve_conflict prints_all always_written (scenario_region "f.txt")
      (mkResolution (Some "custom") (Some "z") None (Some "LOW") None)
      (Chose "Accept AI suggestion")
      (world_with "f.txt" (writelines scenario_lines)).
Proof.
  apply (written_content_ignores_suggestion prints_all always_written
           (scenario_region "f.txt")
           (shown_resolution "keep_current" "z")
           (mkResolution (Some "custom") (Some "z") None (Some "LOW") None)
           (Chose "Accept AI suggestion")
           (world_with "f.txt" (writelines scenario_lines)));
    reflexivity.
Defined.

Lemma no_io_when_rejected_or_declined_witness :
  resolve_conflict prints_all always_written (scenario_region "f.txt")
    (shown_resolution "keep_both" "z") (Chose "Skip for now")
    (world_with "f.txt" (writelines scenario_lines))
  = (Returned false, world_with "f.txt" (writelines scenario_lines)).
Proof.
  apply (no_io_when_rejected_or_declined prints_all always_written
      (scenario_region "f.txt")
           (shown_resolution "keep_both" "z") (Chose "Skip for now")
           (world_with "f.txt" (writelines scenario_lines))).
  right. right. split; [reflexivity | by right].
Defined.

(** * Further properties of the code *)

(** ** The scan of arbitrary lines *)

(** The accumulator only grows at its end. *)
Lemma scan_at_acc (path : string) (lines : list string) :
  ∀ (n i : nat) (conflicts : list Conflict),
    length lines - i ≤ n →
    scan_at path lines i conflicts = conflicts ++ scan_at path lines i [].
Proof.
  induction n as [|n IH]; intros i conflicts Hn.
  - rewrite !scan_at_end by lia. by rewrite app_nil_r.
  - destruct (lines !! i) as [line|] eqn:Hline.
    + pose proof (lookup_lt_Some _ _ _ Hline) as Hlt.
      pose proof (block_at_end_gt path lines i) as Hgt.
      rewrite !(scan_at_step _ _ _ _ _ Hline).
      destruct (startswith line "<<<<<<<").
      * rewrite (IH _ (conflicts ++ _)) by lia.
        rewrite (IH _ ([] ++ _)) by lia. by rewrite <-app_assoc.
      * apply IH. lia.
    + apply lookup_ge_None_1 in Hline. rewrite !scan_at_end by lia.
      by rewrite app_nil_r.
Qed.

Lemma scan_at_nil_step (path : string) (lines : list string) (i : nat)
    (line : string) :
  lines !! i = Some line →
  scan_at path lines i [] =
  if startswith line "<<<<<<<" then
    block_at path lines i ::
    scan_at path lines (end_line (block_at path lines i) + 1) []
  else scan_at path lines (i + 1) [].
Proof.
  intros Hline. rewrite (scan_at_step _ _ _ _ _ Hline).
  destruct (startswith line "<<<<<<<"); [|done].
  by rewrite (scan_at_acc _ _ (length lines) _ ([] ++ _)) by lia.
Qed.

(** What holds of the dictionary built at every opening marker holds of
    every region of a scan. *)
Lemma scan_at_Forall (path : string) (lines : list string)
    (P : Conflict → Prop) :
  (∀ i line, lines !! i = Some line → startswith line "<<<<<<<" = true →
     P (block_at path lines i)) →
  ∀ (n i : nat), length lines - i ≤ n → Forall P (scan_at path lines i []).
Proof.
  intros HP. induction n as [|n IH]; intros i Hn.
  - rewrite scan_at_end by lia. constructor.
  - destruct (lines !! i) as [line|] eqn:Hline.
    + pose proof (lookup_lt_Some _ _ _ Hline) as Hlt.
      pose proof (block_at_end_gt path lines i) as Hgt.
      rewrite (scan_at_nil_step _ _ _ _ Hline).
      destruct (startswith line "<<<<<<<") eqn:Hopen.
      * constructor; [by eapply HP | apply IH; lia].
      * apply IH. lia.
    + apply lookup_ge_None_1 in Hline. rewrite scan_at_end by lia. constructor.
Qed.

Lemma scan_at_sorted (path : string) (lines : list string) :
  ∀ (n i : nat), length lines - i ≤ n →
    StronglySorted lt (bounds (scan_at path lines i [])) ∧
    Forall (λ k, i ≤ k) (bounds (scan_at path lines i [])).
Proof.
  induction n as [|n IH]; intros i Hn.
  - rewrite scan_at_end by lia. split; constructor.
  - destruct (lines !! i) as [line|] eqn:Hline.
    + pose proof (lookup_lt_Some _ _ _ Hline) as Hlt.
      pose proof (block_at_end_gt path lines i) as Hgt.
      rewrite (scan_at_nil_step _ _ _ _ Hline).
      destruct (startswith line "<<<<<<<") eqn:Hopen.
      * destruct (IH (end_line (block_at path lines i) + 1)) as [Hs Hlow];
          [lia |].
        rewrite bounds_cons, block_at_start. split.
        -- constructor; [constructor |].
           ++ done.
           ++ eapply Forall_impl; [exact Hlow |]. simpl. lia.
           ++ constructor; [lia |].
              eapply Forall_impl; [exact Hlow |]. simpl. lia.
        -- constructor; [lia |]. constructor; [lia |].
           eapply Forall_impl; [exact Hlow |]. simpl. lia.
      * destruct (IH (i + 1)) as [Hs Hlow]; [lia |]. split; [done |].
        eapply Forall_impl; [exact Hlow |]. simpl. lia.
    + apply lookup_ge_None_1 in Hline. rewrite scan_at_end by lia.
      split; constructor.
Qed.

Lemma no_prefix_take_leading (tok : string) (rest : list string) :
  no_prefix tok (take (leading tok rest) rest) = true.
Proof.
  induction rest as [|l rest IH]; [done |]. cbn [leading].
  destruct (startswith l tok) eqn:E; [done |].
  cbn [take]. apply no_prefix_cons. by split.
Qed.

Lemma no_prefix_leading (tok : string) (ls : list string) :
  no_prefix tok ls = true ↔ leading tok ls = length ls.
Proof.
  induction ls as [|l ls IH]; [done |]. rewrite no_prefix_cons. cbn [leading length].
  destruct (startswith l tok); [split; [by intros [] | done] |].
  rewrite IH. split; [intros [_ ->]; done | intros [= ->]; done].
Qed.

(** X1. A scan reports no region exactly when no line starts with the
    opening token; a file that cannot be opened is reported the same way. *)
Theorem scan_empty_iff_no_opening (path : string) (lines : list string)
    (w : World) :
  (scan_lines path lines = [] ↔ no_prefix "<<<<<<<" lines = true) ∧
  (files w !! path = None → parse_conflict_file w path = []).
Proof.
  split; [| intros H; unfold parse_conflict_file; by rewrite H].
  rewrite scan_lines_at. split.
  - intros Hscan. apply no_prefix_leading.
    pose proof (leading_le "<<<<<<<" lines) as Hle.
    destruct (decide (leading "<<<<<<<" lines = length lines)) as [|Hne]; [done |].
    exfalso.
    destruct (lookup_lt_is_Some_2 lines (leading "<<<<<<<" lines)) as [l Hl];
      [lia |].
    pose proof (leading_stop _ _ _ Hl) as Hopen.
    pose proof (take_drop_middle _ _ _ Hl) as Hsplit.
    pose proof (scan_at_plain path (take (leading "<<<<<<<" lines) lines) []
                  (l :: drop (S (leading "<<<<<<<" lines)) lines) []
                  (no_prefix_take_leading _ _)) as Hplain.
    cbn [app length] in Hplain. rewrite Hsplit in Hplain.
    rewrite length_take, Nat.add_0_l in Hplain.
    replace (leading "<<<<<<<" lines `min` length lines)
      with (leading "<<<<<<<" lines) in Hplain by lia.
    rewrite Hplain, (scan_at_nil_step _ _ _ _ Hl), Hopen in Hscan. done.
  - intros Hno.
    pose proof (scan_at_plain path lines [] [] [] Hno) as Hplain.
    cbn [app length] in Hplain. rewrite app_nil_r in Hplain.
    rewrite Hplain. by apply scan_at_end.
Qed.

(** X2. For every list of lines the regions come in ascending order and do
    not overlap: the sequence start, end, start, end, ... of their line
    numbers is strictly increasing. *)
Theorem scan_regions_ascending (path : string) (lines : list string) :
  StronglySorted lt (bounds (scan_lines path lines)) ∧
  StronglySorted lt (start_line <$> scan_lines path lines).
Proof.
  rewrite scan_lines_at.
  destruct (scan_at_sorted path lines (length lines) 0) as [Hs _]; [lia |].
  split; [done | by apply bounds_sorted_starts].
Qed.

Lemma slice_take_drop {A : Type} (l : list A) (a n : nat) :
  slice l a (a + n) = take n (drop a l).
Proof. unfold slice. f_equal. lia. Qed.

(** X3. For every list of lines, every region of the scan carries the path
    it was scanned under, starts at a line of the file that begins with
    [<<<<<<<], ends at least two lines later and at most one line past the
    end of the file, and when its end is a line of the file, that line
    begins with [>>>>>>>]. *)
Theorem scan_region_shape (path : string) (lines : list string) :
  Forall
    (λ r,
       file_path r = path ∧
       (∃ line, lines !! start_line r = Some line ∧
                startswith line "<<<<<<<" = true) ∧
       start_line r + 2 ≤ end_line r ≤ length lines + 1 ∧
       (∀ line, lines !! end_line r = Some line →
                startswith line ">>>>>>>" = true))
    (scan_lines path lines).
Proof.
  rewrite scan_lines_at. apply (scan_at_Forall _ _ _) with (n := length lines);
    [| lia].
  intros i line Hline Hopen.
  pose proof (lookup_lt_Some _ _ _ Hline) as Hlt.
  split; [by rewrite block_at_eq |]. rewrite block_at_start.
  split; [by exists line |].
  split; [split; [apply block_at_end_gt | by apply block_at_end_le] |].
  apply block_at_end_closing.
Qed.

(** X4. For every list of lines and every region of the scan there is a
    line number [m] between its start and its end such that the local
    content is the lines from [start + 1] to [m - 1] joined, none of which
    begins with [=======], the incoming content is the lines from [m + 1]
    to [end - 1] joined, none of which begins with [>>>>>>>], and line [m],
    when the file has it, begins with [=======]. *)
Theorem scan_region_contents (path : string) (lines : list string) :
  Forall
    (λ r,
       ∃ m : nat,
         start_line r < m < end_line r ∧
         current_content r = join (slice lines (start_line r + 1) m) ∧
         no_prefix "=======" (slice lines (start_line r + 1) m) = true ∧
         (∀ line, lines !! m = Some line → startswith line "=======" = true) ∧
         incoming_content r = join (slice lines (m + 1) (end_line r)) ∧
         no_prefix ">>>>>>>" (slice lines (m + 1) (end_line r)) = true)
    (scan_lines path lines).
Proof.
  rewrite scan_lines_at. apply (scan_at_Forall _ _ _) with (n := length lines);
    [| lia].
  intros i line Hline Hopen. rewrite block_at_eq.
  cbn [start_line end_line current_content incoming_content].
  set (n1 := leading "=======" (drop (i + 1) lines)).
  set (n2 := leading ">>>>>>>" (drop (i + 2 + n1) lines)).
  exists (i + 1 + n1).
  replace (i + 1 + n1 + 1) with (i + 2 + n1) by lia.
  replace (i + 2 + n1 + n2) with ((i + 2 + n1) + n2) by lia.
  rewrite !slice_take_drop. repeat split.
  - lia.
  - lia.
  - apply no_prefix_take_leading.
  - intros l Hl. apply (leading_stop "=======" (drop (i + 1) lines)).
    by rewrite lookup_drop.
  - apply no_prefix_take_leading.
Qed.

(** X5. For every list of lines and every region of the scan, the context
    before is the (at most five) lines that precede the opening marker,
    joined: exactly five when the file has that many before it; the context
    after is the at most five lines that follow the end line, joined.
    Neither holds a line of the region itself. *)
Theorem scan_region_context (path : string) (lines : list string) :
  Forall
    (λ r,
       context_before r
         = join (slice lines (start_line r - 5) (start_line r)) ∧
       length (slice lines (start_line r - 5) (start_line r))
         = Nat.min 5 (start_line r) ∧
       context_after r
         = join (slice lines (end_line r + 1) (end_line r + 6)) ∧
       length (slice lines (end_line r + 1) (end_line r + 6))
         = Nat.min 5 (length lines - (end_line r + 1)))
    (scan_lines path lines).
Proof.
  rewrite scan_lines_at. apply (scan_at_Forall _ _ _) with (n := length lines);
    [| lia].
  intros i line Hline Hopen.
  pose proof (lookup_lt_Some _ _ _ Hline) as Hlt.
  rewrite block_at_eq.
  cbn [start_line end_line context_before context_after].
  set (e := i + 2 + leading "=======" (drop (i + 1) lines)
            + leading ">>>>>>>"
                (drop (i + 2 + leading "=======" (drop (i + 1) lines)) lines)).
  replace (i + 3 + leading "=======" (drop (i + 1) lines)
           + leading ">>>>>>>"
               (drop (i + 2 + leading "=======" (drop (i + 1) lines)) lines))
    with (e + 1) by (unfold e; lia).
  replace (i + 8 + leading "=======" (drop (i + 1) lines)
           + leading ">>>>>>>"
               (drop (i + 2 + leading "=======" (drop (i + 1) lines)) lines))
    with (e + 6) by (unfold e; lia).
  repeat split.
  - unfold slice. rewrite length_take, length_drop. lia.
  - f_equal. unfold slice.
    destruct (decide (e + 6 ≤ length lines)) as [Hin|Hout].
    + by replace (length lines `min` (e + 6)) with (e + 6) by lia.
    + replace (length lines `min` (e + 6)) with (length lines) by lia.
      rewrite !take_ge; [done | |]; rewrite length_drop; lia.
  - unfold slice. rewrite length_take, length_drop. lia.
Qed.

(** ** Marker lines *)

(** Every line that begins with the opening token lies in a region. *)
Lemma scan_at_covers (path : string) (lines : list string) :
  ∀ (n i : nat), length lines - i ≤ n →
    ∀ j line, i ≤ j → lines !! j = Some line →
      startswith line "<<<<<<<" = true →
      ∃ r, r ∈ scan_at path lines i [] ∧ start_line r ≤ j ≤ end_line r.
Proof.
  induction n as [|n IH]; intros i Hn j line Hij Hj Hopen.
  - apply lookup_lt_Some in Hj. lia.
  - pose proof (lookup_lt_Some _ _ _ Hj) as Hlt.
    destruct (lookup_lt_is_Some_2 lines i) as [l Hl]; [lia |].
    pose proof (block_at_end_gt path lines i) as Hgt.
    rewrite (scan_at_nil_step _ _ _ _ Hl).
    destruct (startswith l "<<<<<<<") eqn:Hl_open.
    + destruct (decide (j ≤ end_line (block_at path lines i))) as [Hin | Hout].
      * exists (block_at path lines i). split; [left |].
        rewrite block_at_start. lia.
      * destruct (IH (end_line (block_at path lines i) + 1) ltac:(lia)
                    j line ltac:(lia) Hj Hopen) as (r & Hr & Hb).
        exists r. split; [by right | done].
    + assert (i ≠ j) by (intros ->; congruence).
      apply (IH (i + 1) ltac:(lia) j line); [lia | done | done].
Qed.

Lemma bounds_elem (rs : list Conflict) (r : Conflict) :
  r ∈ rs → start_line r ∈ bounds rs ∧ end_line r ∈ bounds rs.
Proof.
  induction rs as [|x rs IH]; [by intros ?%elem_of_nil |].
  rewrite bounds_cons. intros [-> | Hr]%elem_of_cons.
  - split; [left | right; left].
  - destruct (IH Hr). split; by do 2 right.
Qed.

(** Regions whose bounds ascend do not overlap. *)
Lemma bounds_sorted_apart (rs : list Conflict) (r r' : Conflict) :
  StronglySorted lt (bounds rs) → r ∈ rs → r' ∈ rs →
  start_line r' < start_line r → end_line r' < start_line r.
Proof.
  induction rs as [|x rs IH]; [by intros _ ?%elem_of_nil |].
  rewrite bounds_cons. intros Hsorted.
  apply StronglySorted_inv in Hsorted as [Hrest Hs].
  apply StronglySorted_inv in Hrest as [Hrest He].
  apply Forall_cons in Hs as [Hse Hs].
  rewrite Forall_forall in Hs, He.
  intros [-> | Hr]%elem_of_cons [-> | Hr']%elem_of_cons Hlt.
  - lia.
  - apply bounds_elem in Hr' as [Hr' _]. apply Hs in Hr'. lia.
  - apply bounds_elem in Hr as [Hr _]. by apply He in Hr.
  - by apply IH.
Qed.

(** C8, counterexample.  In these seven lines the second begins with
    [<<<<<<<], the third with [>>>>>>>], the fifth and the seventh with
    [=======]; the scan takes none of the four as a marker.  It reports one
    region, from line 0 to line 5: the second and third lines are its local
    content, the fifth is its incoming content, the seventh is context. *)
Lemma marker_prefix_inside_region_is_content :
  scan_lines "f.txt" nested_lines = [nested_region "f.txt"] ∧
  (∃ line, nested_lines !! 1 = Some line ∧
           startswith line "<<<<<<<" = true ∧
           ∀ r, r ∈ scan_lines "f.txt" nested_lines → start_line r ≠ 1) ∧
  (∃ line, nested_lines !! 2 = Some line ∧
           startswith line ">>>>>>>" = true ∧
           ∀ r, r ∈ scan_lines "f.txt" nested_lines → end_line r ≠ 2) ∧
  (∃ line, nested_lines !! 4 = Some line ∧
           startswith line "=======" = true ∧
           incoming_content (nested_region "f.txt") = line) ∧
  (∃ line, nested_lines !! 6 = Some line ∧
           startswith line "=======" = true ∧
           context_after (nested_region "f.txt") = line).
Proof.
  assert (scan_lines "f.txt" nested_lines = [nested_region "f.txt"]) as Hscan
    by reflexivity.
  split; [exact Hscan |]. rewrite Hscan.
  split; [| split; [| split]].
  - eexists. split; [reflexivity |]. split; [reflexivity |].
    by intros r ->%list_elem_of_singleton.
  - eexists. split; [reflexivity |]. split; [reflexivity |].
    by intros r ->%list_elem_of_singleton.
  - eexists. split; [reflexivity |]. split; reflexivity.
  - eexists. split; [reflexivity |]. split; reflexivity.
Qed.

(** C8, as the code has it.  The scanner tests a line for a marker by its
    first seven characters, never by the whole line, so a marker followed
    by a label is a marker; which of the three tests a line meets depends
    on where the scan stands.  A line opens a region exactly when it begins
    with [<<<<<<<] and does not lie inside a region opened before it.  In
    every region the separator is the first line after the opening marker
    that begins with [=======], and the closing marker is the first line
    after the separator that begins with [>>>>>>>]; the lines between them
    are the content of the two sides, whatever they begin with. *)
Theorem markers_recognised_in_context (path : string) (lines : list string) :
  (∀ a b c : string,
     scan_lines path ["<<<<<<<" +:+ a; "=======" +:+ b; ">>>>>>>" +:+ c]
     = [mkConflict path 0 2 EmptyString EmptyString EmptyString EmptyString]) ∧
  (∀ i line, lines !! i = Some line →
     ((∃ r, r ∈ scan_lines path lines ∧ start_line r = i) ↔
      (∃ label, line = "<<<<<<<" +:+ label) ∧
      ¬ ∃ r, r ∈ scan_lines path lines ∧ start_line r < i ≤ end_line r)) ∧
  Forall
    (λ r,
       ∃ m : nat,
         start_line r < m < end_line r ∧
         (∀ k line, start_line r < k < m → lines !! k = Some line →
                    ¬ ∃ label, line = "=======" +:+ label) ∧
         (∀ line, lines !! m = Some line →
                  ∃ label, line = "=======" +:+ label) ∧
         (∀ k line, m < k < end_line r → lines !! k = Some line →
                    ¬ ∃ label, line = ">>>>>>>" +:+ label) ∧
         (∀ line, lines !! end_line r = Some line →
                  ∃ label, line = ">>>>>>>" +:+ label) ∧
         current_content r = join (slice lines (start_line r + 1) m) ∧
         incoming_content r = join (slice lines (m + 1) (end_line r)))
    (scan_lines path lines).
Proof.
  split; [| split].
  - intros a b c. reflexivity.
  - intros i line Hline. rewrite scan_lines_at.
    assert (Forall
              (λ r, ∃ l, lines !! start_line r = Some l ∧
                         startswith l "<<<<<<<" = true)
              (scan_at path lines 0 [])) as Hstarts.
    { apply (scan_at_Forall _ _ _) with (n := length lines); [| lia].
      intros k l Hl Hopen. rewrite block_at_start. by exists l. }
    rewrite Forall_forall in Hstarts.
    destruct (scan_at_sorted path lines (length lines) 0) as [Hsorted _];
      [lia |].
    split.
    + intros (r & Hr & <-).
      destruct (Hstarts r Hr) as (l & Hl & Hopen).
      assert (l = line) as -> by congruence.
      split; [by apply startswith_app |].
      intros (r' & Hr' & Hlt & Hle).
      pose proof (bounds_sorted_apart _ r r' Hsorted Hr Hr' Hlt). lia.
    + intros [Hopen%startswith_app Hout].
      destruct (scan_at_covers path lines (length lines) 0 ltac:(lia)
                  i line ltac:(lia) Hline Hopen) as (r & Hr & Hs & He).
      exists r. split; [done |].
      destruct (decide (start_line r = i)) as [| Hne]; [done |].
      exfalso. apply Hout. exists r. split; [done | lia].
  - rewrite scan_lines_at.
    apply (scan_at_Forall _ _ _) with (n := length lines); [| lia].
    intros i line Hline Hopen.
    pose proof (block_at_end_closing path lines i) as Hclose.
    revert Hclose. rewrite block_at_eq.
    cbn [start_line end_line current_content incoming_content].
    set (n1 := leading "=======" (drop (i + 1) lines)).
    set (n2 := leading ">>>>>>>" (drop (i + 2 + n1) lines)).
    intros Hclose.
    exists (i + 1 + n1).
    replace (i + 1 + n1 + 1) with (i + 2 + n1) by lia.
    replace (i + 2 + n1 + n2) with ((i + 2 + n1) + n2) by lia.
    rewrite !slice_take_drop.
    split; [lia |]. split; [| split; [| split; [| split; [| done]]]].
    + intros k l [Hk1 Hk2] Hl. apply startswith_false_app.
      pose proof (no_prefix_take_leading "=======" (drop (i + 1) lines))
        as Hno.
      fold n1 in Hno.
      assert (take n1 (drop (i + 1) lines) !! (k - (i + 1)) = Some l) as Hk.
      { rewrite lookup_take_lt by lia. rewrite lookup_drop.
        by replace (i + 1 + (k - (i + 1))) with k by lia. }
      pose proof (forallb_lookup _ _ _ _ Hno Hk) as Hneg.
      by apply negb_true_iff in Hneg.
    + intros l Hl. apply startswith_app.
      apply (leading_stop "=======" (drop (i + 1) lines)).
      by rewrite lookup_drop.
    + intros k l [Hk1 Hk2] Hl. apply startswith_false_app.
      pose proof (no_prefix_take_leading ">>>>>>>" (drop (i + 2 + n1) lines))
        as Hno.
      fold n2 in Hno.
      assert (take n2 (drop (i + 2 + n1) lines) !! (k - (i + 2 + n1)) = Some l)
        as Hk.
      { rewrite lookup_take_lt by lia. rewrite lookup_drop.
        by replace (i + 2 + n1 + (k - (i + 2 + n1))) with k by lia. }
      pose proof (forallb_lookup _ _ _ _ Hno Hk) as Hneg.
      by apply negb_true_iff in Hneg.
    + intros l Hl. apply startswith_app. by apply Hclose.
Qed.

Lemma bounds_app (xs ys : list Conflict) : bounds (xs ++ ys) = bounds xs ++ bounds ys.
Proof. unfold bounds. apply flat_map_app. Qed.

(** X6. Only the last region of a scan can be left open: every region
    before the last one ends at a line of the file, and that line begins
    with [>>>>>>>]. *)
Theorem scan_only_last_open (path : string) (lines : list string)
    (rs : list Conflict) (last : Conflict) :
  scan_lines path lines = rs ++ [last] →
  Forall
    (λ r, end_line r < start_line last ∧
          ∃ line, lines !! end_line r = Some line ∧
                  startswith line ">>>>>>>" = true)
    rs.
Proof.
  intros Hscan.
  assert (Forall
            (λ r, (∃ line, lines !! start_line r = Some line ∧
                           startswith line "<<<<<<<" = true) ∧
                  (∀ line, lines !! end_line r = Some line →
                           startswith line ">>>>>>>" = true))
            (scan_lines path lines)) as Hshape.
  { rewrite scan_lines_at.
    apply (scan_at_Forall _ _ _) with (n := length lines); [| lia].
    intros i line Hline Hopen. rewrite block_at_start.
    split; [by exists line | apply block_at_end_closing]. }
  assert (StronglySorted lt (bounds (scan_lines path lines))) as Hsorted.
  { rewrite scan_lines_at. apply (scan_at_sorted path lines (length lines) 0). lia. }
  rewrite Hscan in Hshape, Hsorted. clear Hscan.
  apply Forall_app in Hshape as [Hrs Hlast].
  apply Forall_cons in Hlast as [[[l0 [Hl0 _]] _] _].
  pose proof (lookup_lt_Some _ _ _ Hl0) as Hlt.
  induction rs as [|r rs IH]; [constructor |].
  apply Forall_cons in Hrs as [[_ Hclose] Hrs].
  change ((r :: rs) ++ [last]) with (r :: (rs ++ [last])) in Hsorted.
  rewrite bounds_cons in Hsorted.
  apply StronglySorted_inv in Hsorted as [Hsorted _].
  apply StronglySorted_inv in Hsorted as [Hsorted Hend].
  constructor; [| by apply IH].
  assert (end_line r < start_line last) as Hbefore.
  { rewrite bounds_app in Hend. apply Forall_app in Hend as [_ Hend].
    cbn in Hend. by apply Forall_cons in Hend as [? _]. }
  split; [done |].
  destruct (lookup_lt_is_Some_2 lines (end_line r)) as [l Hl]; [lia |].
  exists l. split; [done | by apply Hclose].
Qed.

Lemma scan_only_last_open_witness :
  Forall
    (λ r, end_line r < 3 ∧
          ∃ line,
            [ "<<<<<<< A" +:+ nl; "=======" +:+ nl; ">>>>>>> B" +:+ nl;
              "<<<<<<< A" +:+ nl; "x" +:+ nl ] !! end_line r = Some line ∧
            startswith line ">>>>>>>" = true)
    [ {| file_path := "f.txt"; start_line := 0; end_line := 2;
         current_content := EmptyString; incoming_content := EmptyString;
         context_before := EmptyString;
         context_after := "<<<<<<< A" +:+ nl +:+ "x" +:+ nl |} ].
Proof.
  apply (scan_only_last_open "f.txt"
           [ "<<<<<<< A" +:+ nl; "=======" +:+ nl; ">>>>>>> B" +:+ nl;
             "<<<<<<< A" +:+ nl; "x" +:+ nl ]
           [ {| file_path := "f.txt"; start_line := 0; end_line := 2;
                current_content := EmptyString; incoming_content := EmptyString;
                context_before := EmptyString;
                context_after := "<<<<<<< A" +:+ nl +:+ "x" +:+ nl |} ]
           {| file_path := "f.txt"; start_line := 3; end_line := 6;
              current_content := "x" +:+ nl; incoming_content := EmptyString;
              context_before :=
                "<<<<<<< A" +:+ nl +:+ "=======" +:+ nl +:+ ">>>>>>> B" +:+ nl;
              context_after := EmptyString |}).
  reflexivity.
Defined.

(** ** Reading a file and writing it back *)

Lemma string_app_nil_r (a : string) : a +:+ EmptyString = a.
Proof.
  induction a as [|x a IH]; [done |]. by rewrite string_app_cons, IH.
Qed.

Lemma join_app (xs ys : list string) : join (xs ++ ys) = join xs +:+ join ys.
Proof.
  induction xs as [|x xs IH]; [done |]. cbn [app join].
  by rewrite IH, string_app_assoc.
Qed.

Lemma mentions_app (c : ascii) (a b : string) :
  mentions c (a +:+ b) = mentions c a || mentions c b.
Proof.
  induction a as [|x a IH]; [done |]. rewrite string_app_cons. cbn [mentions].
  by rewrite IH, orb_assoc.
Qed.

Lemma mentions_join (c : ascii) (ls : list string) :
  mentions c (join ls) = existsb (mentions c) ls.
Proof.
  induction ls as [|l ls IH]; [done |]. cbn [join existsb].
  by rewrite mentions_app, IH.
Qed.

Lemma truthy_app (a b : string) : truthy (a +:+ b) = truthy a || truthy b.
Proof. by destruct a. Qed.

Lemma join_split_lines (cur s : string) : join (split_lines cur s) = cur +:+ s.
Proof.
  revert cur. induction s as [|c s IH]; intros cur.
  - cbn [split_lines]. rewrite string_app_nil_r.
    destruct cur as [|d cur]; [done |]. cbn [truthy join].
    apply string_app_nil_r.
  - cbn [split_lines]. destruct (Ascii.eqb_spec c LF) as [-> | Hne].
    + cbn [join]. rewrite IH. by rewrite string_app_assoc.
    + rewrite IH. by rewrite string_app_assoc.
Qed.

Lemma universal_newlines_no_cr_aux (s : string) :
  mentions CR (universal_newlines s) = false ∧
  ∀ c, mentions CR (universal_newlines (String c s)) = false.
Proof.
  induction s as [|d s [IH1 IH2]].
  - split; [done |]. intros c. cbn [universal_newlines].
    destruct (Ascii.eqb_spec c CR) as [-> | Hne]; [done |].
    cbn [mentions]. rewrite orb_false_r. apply Ascii.eqb_neq. congruence.
  - split; [apply IH2 |]. intros c.
    change (universal_newlines (String c (String d s)))
      with (if Ascii.eqb c CR
            then if Ascii.eqb d LF then String LF (universal_newlines s)
                 else String LF (universal_newlines (String d s))
            else String c (universal_newlines (String d s))).
    destruct (Ascii.eqb_spec c CR) as [-> | Hne].
    + destruct (Ascii.eqb d LF); cbn [mentions]; [by rewrite IH1 | by rewrite IH2].
    + cbn [mentions]. rewrite IH2, orb_false_r. apply Ascii.eqb_neq. congruence.
Qed.

Lemma universal_newlines_id (s : string) :
  mentions CR s = false → universal_newlines s = s.
Proof.
  induction s as [|c s IH]; [done |]. cbn [mentions].
  intros [Hc Hs]%orb_false_iff. cbn [universal_newlines].
  rewrite Ascii.eqb_sym, Hc. by rewrite IH.
Qed.

Lemma split_lines_no_lf (cur s : string) :
  mentions LF s = false →
  split_lines cur s = if truthy (cur +:+ s) then [cur +:+ s] else [].
Proof.
  revert cur. induction s as [|c s IH]; intros cur.
  - intros _. cbn [split_lines]. by rewrite string_app_nil_r.
  - cbn [mentions]. intros [Hc Hs]%orb_false_iff. cbn [split_lines].
    rewrite Ascii.eqb_sym, Hc. rewrite IH by done.
    by rewrite string_app_assoc.
Qed.

Lemma split_lines_join_tail (ls : list string) (tail : string) :
  forallb terminated ls = true →
  split_lines EmptyString (join ls +:+ tail)
  = ls ++ split_lines EmptyString tail.
Proof.
  induction ls as [|l ls IH]; [done |]. cbn [forallb join].
  intros [Hl Hls]%andb_true_iff.
  rewrite string_app_assoc, split_lines_terminated by done.
  by rewrite IH.
Qed.

Lemma terminated_app_nl (cur : string) :
  mentions LF cur = false → terminated (cur +:+ nl) = true.
Proof.
  induction cur as [|c cur IH]; [done |]. cbn [mentions].
  intros [Hc Hcur]%orb_false_iff. rewrite string_app_cons. cbn [terminated].
  rewrite Ascii.eqb_sym, Hc. by apply IH.
Qed.

Lemma split_lines_shape (cur s : string) :
  mentions LF cur = false →
  ∃ (ls : list string) (tail : string),
    split_lines cur s = ls ++ (if truthy tail then [tail] else []) ∧
    forallb terminated ls = true ∧
    mentions LF tail = false.
Proof.
  revert cur. induction s as [|c s IH]; intros cur Hcur.
  - exists [], cur. by cbn [split_lines app].
  - cbn [split_lines]. destruct (Ascii.eqb_spec c LF) as [-> | Hne].
    + destruct (IH EmptyString) as (ls & tail & -> & Hls & Htail); [done |].
      exists ((cur +:+ nl) :: ls), tail. repeat split; [| done].
      cbn [forallb]. by rewrite terminated_app_nl, Hls.
    + apply IH. rewrite mentions_app, Hcur. cbn [mentions].
      rewrite orb_false_r. apply Ascii.eqb_neq. congruence.
Qed.

Lemma join_readlines (text : string) :
  join (readlines text) = universal_newlines text.
Proof. unfold readlines. apply join_split_lines. Qed.

Lemma join_readlines_no_cr (text : string) :
  mentions CR (join (readlines text)) = false.
Proof. rewrite join_readlines. apply universal_newlines_no_cr_aux. Qed.

(** X7. Reading a text and writing the lines back gives the text with
    every ['\r\n'] and every lone ['\r'] turned into ['\n']: the same text
    when it holds no carriage return, and in every case a text without
    carriage returns. *)
Theorem writelines_readlines (text : string) :
  writelines (readlines text) = universal_newlines text ∧
  mentions CR (writelines (readlines text)) = false ∧
  (mentions CR text = false → writelines (readlines text) = text).
Proof.
  assert (writelines (readlines text) = universal_newlines text) as Heq.
  { unfold writelines, readlines. apply join_split_lines. }
  rewrite Heq. split; [done |]. split.
  - apply universal_newlines_no_cr_aux.
  - apply universal_newlines_id.
Qed.

(** X8. Writing lines and reading them back gives the same lines, when
    none holds a carriage return, each ends with its only line feed, and
    at most the last one, if not empty, has no line feed at all. *)
Theorem readlines_writelines (ls : list string) (tail : string) :
  forallb terminated ls = true →
  mentions LF tail = false →
  existsb (mentions CR) (ls ++ [tail]) = false →
  readlines (writelines ls) = ls ∧
  (truthy tail = true → readlines (writelines (ls ++ [tail])) = ls ++ [tail]).
Proof.
  intros Hls Htail Hcr. unfold readlines, writelines.
  rewrite existsb_app in Hcr. apply orb_false_iff in Hcr as [Hcr1 Hcr2].
  cbn [existsb] in Hcr2. rewrite orb_false_r in Hcr2. split.
  - rewrite universal_newlines_id by (by rewrite mentions_join).
    by apply split_lines_join.
  - intros Htruthy. rewrite join_app. cbn [join]. rewrite string_app_nil_r.
    rewrite universal_newlines_id
      by (by rewrite mentions_app, mentions_join, Hcr1, Hcr2).
    rewrite split_lines_join_tail by done.
    rewrite split_lines_no_lf by done.
    change (EmptyString +:+ tail) with tail. by rewrite Htruthy.
Qed.

Lemma readlines_writelines_witness :
  readlines (writelines ["a" +:+ nl; "b" +:+ nl]) = ["a" +:+ nl; "b" +:+ nl] ∧
  (truthy "c" = true →
   readlines (writelines (["a" +:+ nl; "b" +:+ nl] ++ ["c"]))
   = ["a" +:+ nl; "b" +:+ nl] ++ ["c"]).
Proof.
  apply (readlines_writelines ["a" +:+ nl; "b" +:+ nl] "c"); reflexivity.
Defined.

(** X9. The lines that [readlines] returns are never empty and hold no
    carriage return; each of them ends with its only line feed, except
    that the last one has no line feed when the text does not end with
    one. *)
Theorem readlines_shape (text : string) :
  Forall (λ l, truthy l = true ∧ mentions CR l = false) (readlines text) ∧
  ∃ (ls : list string) (tail : string),
    readlines text = ls ++ (if truthy tail then [tail] else []) ∧
    forallb terminated ls = true ∧
    mentions LF tail = false.
Proof.
  destruct (split_lines_shape EmptyString (universal_newlines text) eq_refl)
    as (ls & tail & Hsplit & Hls & Htail).
  split; [| by exists ls, tail].
  assert (mentions CR (join (readlines text)) = false) as Hcr.
  { unfold readlines. rewrite join_split_lines.
    apply universal_newlines_no_cr_aux. }
  rewrite mentions_join in Hcr. unfold readlines in *. rewrite Hsplit in *.
  apply Forall_forall. intros l Hl. split.
  - apply elem_of_app in Hl as [Hl | Hl].
    + apply list_elem_of_In in Hl.
      pose proof (proj1 (forallb_forall _ _) Hls l Hl) as Hterm.
      by destruct l.
    + destruct (truthy tail) eqn:Ht; [| by apply elem_of_nil in Hl].
      apply list_elem_of_singleton in Hl. by subst.
  - destruct (mentions CR l) eqn:Hm; [| done].
    apply list_elem_of_In in Hl.
    assert (existsb (mentions CR) (ls ++ (if truthy tail then [tail] else []))
            = true) as Hex by (apply existsb_exists; eauto).
    congruence.
Qed.

(** ** The effects of [resolve_conflict] *)

Section ResolveConflictEffects.

Variable rich_renders : Conflict → Resolution → bool.
Variable write_result : string → string → WriteResult.

(** The five ways a call can leave the world. *)
Lemma resolve_conflict_cases (c : Conflict) (r : Resolution) (ans : Answer)
    (w : World) :
  let run := resolve_conflict rich_renders write_result c r ans w in
  (fst run ≠ Returned true ∧ snd run = w) ∨
  (run = (Returned false,
          mkWorld (files w) (io_log w ++ [IoRead (file_path c)])) ∧
   files w !! file_path c = None) ∨
  (∃ text new_text,
     files w !! file_path c = Some text ∧
     write_result (file_path c) new_text = WriteOk ∧
     run = (Returned true,
            mkWorld (<[file_path c := new_text]> (files w))
              (io_log w ++
               [IoRead (file_path c); IoWrite (file_path c) new_text]))) ∨
  (∃ text new_text,
     files w !! file_path c = Some text ∧
     write_result (file_path c) new_text = OpenRefused ∧
     run = (Returned false,
            mkWorld (files w)
              (io_log w ++
               [IoRead (file_path c); IoFailedWrite (file_path c)]))) ∨
  (∃ text new_text rest,
     files w !! file_path c = Some text ∧
     write_result (file_path c) new_text = WriteCut rest ∧
     run = (Returned false,
            mkWorld (<[file_path c := rest]> (files w))
              (io_log w ++
               [IoRead (file_path c); IoFailedWrite (file_path c)]))).
Proof.
  assert (∀ content,
    let run := apply_resolution write_result c content w in
    (run = (Returned false,
            mkWorld (files w) (io_log w ++ [IoRead (file_path c)])) ∧
     files w !! file_path c = None) ∨
    (∃ text new_text,
       files w !! file_path c = Some text ∧
       write_result (file_path c) new_text = WriteOk ∧
       run = (Returned true,
              mkWorld (<[file_path c := new_text]> (files w))
                (io_log w ++
                 [IoRead (file_path c); IoWrite (file_path c) new_text]))) ∨
    (∃ text new_text,
       files w !! file_path c = Some text ∧
       write_result (file_path c) new_text = OpenRefused ∧
       run = (Returned false,
              mkWorld (files w)
                (io_log w ++
                 [IoRead (file_path c); IoFailedWrite (file_path c)]))) ∨
    (∃ text new_text rest,
       files w !! file_path c = Some text ∧
       write_result (file_path c) new_text = WriteCut rest ∧
       run = (Returned false,
              mkWorld (<[file_path c := rest]> (files w))
                (io_log w ++
                 [IoRead (file_path c); IoFailedWrite (file_path c)]))))
    as Happly.
  { intros content run. subst run. unfold apply_resolution.
    destruct (files w !! file_path c) as [text|] eqn:Htext; [| by left].
    right.
    destruct (write_result _ _) as [| | rest] eqn:Hw.
    - left. by eexists _, _.
    - right. left. by eexists _, _.
    - right. right. by eexists _, _, _. }
  intros run. subst run. unfold resolve_conflict.
  destruct (merged_content r) as [merged|]; [| by left].
  destruct (truthy merged); [| by left]. cbn [negb].
  destruct (menu_shown rich_renders c r); [| by left]. cbn [negb].
  destruct ans as [choice| |]; [| right; apply Happly | by left].
  destruct (String.eqb choice "Cancel"); [by left |].
  destruct (String.eqb choice "Skip for now"); [by left |].
  right. apply Happly.
Qed.

(** X10. Whatever the resolution, the answer and the outcome, a call of
    [resolve_conflict] never creates or deletes a file and never changes a
    file other than the one named by the conflict. *)
Theorem resolve_conflict_frame (c : Conflict) (r : Resolution) (ans : Answer)
    (w : World) :
  let w' := snd (resolve_conflict rich_renders write_result c r ans w) in
  dom (files w') = dom (files w) ∧
  ∀ path, path ≠ file_path c → files w' !! path = files w !! path.
Proof.
  intros w'. subst w'.
  destruct (resolve_conflict_cases c r ans w)
    as [[_ ->] | [[-> _] | [(text & new_text & Htext & _ & ->)
        | [(text & new_text & Htext & _ & ->)
          | (text & new_text & rest & Htext & _ & ->)]]]];
    [done | done | | done |].
  - cbn [snd files]. split.
    + rewrite dom_insert_L. apply elem_of_dom_2 in Htext.
      apply subseteq_union_1_L. by apply singleton_subseteq_l.
    + intros path Hne. by rewrite lookup_insert_ne.
  - cbn [snd files]. split.
    + rewrite dom_insert_L. apply elem_of_dom_2 in Htext.
      apply subseteq_union_1_L. by apply singleton_subseteq_l.
    + intros path Hne. by rewrite lookup_insert_ne.
Qed.



(** X13. The text written is the text of the lines before the region, then
    the replacement, then the text of the lines after the region.  As the
    lines are read without their carriage returns, the written text holds a
    carriage return only if the replacement does. *)
Theorem apply_resolution_text (c : Conflict) (content text : string)
    (w : World) :
  files w !! file_path c = Some text →
  fst (apply_resolution write_result c content w) = Returned true →
  let lines := readlines text in
  files (snd (apply_resolution write_result c content w)) !! file_path c
  = Some (join (take (start_line c) lines) +:+ ensure_newline content +:+
          join (drop (end_line c + 1) lines)) ∧
  (mentions CR content = false →
   ∀ new_text,
     files (snd (apply_resolution write_result c content w)) !! file_path c
     = Some new_text →
     mentions CR new_text = false).
Proof.
  intros Htext Htrue lines.
  assert (files (snd (apply_resolution write_result c content w)) !! file_path c
          = Some (join (take (start_line c) lines) +:+ ensure_newline content +:+
                  join (drop (end_line c + 1) lines))) as Hwritten.
  { revert Htrue. unfold apply_resolution. rewrite Htext.
    destruct (write_result _ _); cbn [fst snd files]; [| done | done].
    intros _.
    rewrite lookup_insert_eq. f_equal. unfold writelines, splice.
    rewrite join_app. cbn [app join]. done. }
  split; [done |]. intros Hcr new_text. rewrite Hwritten. intros [= <-].
  assert (existsb (mentions CR) lines = false) as Hlines.
  { rewrite <-mentions_join. unfold lines, readlines.
    rewrite join_split_lines. apply universal_newlines_no_cr_aux. }
  rewrite <-(take_drop (start_line c) lines), existsb_app in Hlines.
  apply orb_false_iff in Hlines as [Htake Hdrop].
  assert (existsb (mentions CR) (drop (end_line c + 1) lines) = false) as Hdrop'.
  { pose proof (join_readlines_no_cr text) as Hall. fold lines in Hall.
    rewrite <-(take_drop (end_line c + 1) lines), join_app, mentions_app in Hall.
    apply orb_false_iff in Hall as [_ Hall]. by rewrite mentions_join in Hall. }
  rewrite !mentions_app, !mentions_join, Htake, Hdrop'.
  rewrite orb_false_l, orb_false_r.
  unfold ensure_newline.
  destruct (truthy content && negb (endswith content nl)); [| done].
  by rewrite mentions_app, Hcr.
Qed.

End ResolveConflictEffects.


Lemma apply_resolution_text_witness :
  files (snd (apply_resolution always_written (scenario_region "f.txt") "z"
                (world_with "f.txt" crlf_scenario_text))) !! "f.txt"
  = Some (join (take 1 (readlines crlf_scenario_text)) +:+ ensure_newline "z" +:+
          join (drop (5 + 1) (readlines crlf_scenario_text))).
Proof.
  apply (apply_resolution_text always_written (scenario_region "f.txt") "z"
           crlf_scenario_text (world_with "f.txt" crlf_scenario_text)).
  - apply lookup_singleton_eq.
  - vm_compute. reflexivity.
Defined.

(** ** Scanning a file and resolving its first region *)

(** Bring both sides of an equation between lists to the same bracketing. *)
Ltac list_assoc :=
  repeat first [rewrite <-app_assoc | progress cbn [app]].

Lemma forallb_take {A : Type} (f : A → bool) (l : list A) (n : nat) :
  forallb f l = true → forallb f (take n l) = true.
Proof.
  revert n. induction l as [|x l IH]; intros [|n]; try done.
  cbn [forallb take]. intros [-> Hl]%andb_true_iff. by apply IH.
Qed.

(** A line that [readlines] returns before another one ends with its only
    line feed. *)
Lemma readlines_before_last (text : string) (xs : list string) (y : string)
    (ys : list string) :
  readlines text = xs ++ y :: ys → forallb terminated xs = true.
Proof.
  intros Hread.
  destruct (split_lines_shape EmptyString (universal_newlines text) eq_refl)
    as (ls & tail & Hsplit & Hls & Htail).
  unfold readlines in Hread. rewrite Hread in Hsplit.
  assert (length xs ≤ length ls) as Hlen.
  { apply (f_equal length) in Hsplit. rewrite !length_app in Hsplit.
    destruct (truthy tail); simpl in Hsplit; lia. }
  assert (xs = take (length xs) ls) as ->.
  { rewrite <-(take_app_le ls (if truthy tail then [tail] else [])) by done.
    rewrite <-Hsplit. by rewrite take_app_length. }
  by apply forallb_take.
Qed.

(** The lines of a file from any point on are read back from their text. *)
Lemma readlines_suffix (text : string) (xs ys : list string) :
  readlines text = xs ++ ys → split_lines EmptyString (join ys) = ys.
Proof.
  intros Hread. destruct ys as [|y ys]; [done |].
  pose proof (readlines_before_last _ _ _ _ Hread) as Hxs.
  pose proof (join_split_lines EmptyString (universal_newlines text)) as Hjoin.
  change (split_lines EmptyString (universal_newlines text))
    with (readlines text) in Hjoin.
  change (EmptyString +:+ universal_newlines text)
    with (universal_newlines text) in Hjoin.
  rewrite Hread, join_app in Hjoin.
  unfold readlines in Hread. rewrite <-Hjoin in Hread.
  rewrite split_lines_join_tail in Hread by done.
  by apply app_inv_head in Hread.
Qed.

Lemma readlines_no_cr (text : string) (xs : list string) :
  (∃ pre post, readlines text = pre ++ xs ++ post) →
  mentions CR (join xs) = false.
Proof.
  intros (pre & post & Hread).
  pose proof (join_readlines_no_cr text) as Hcr.
  rewrite Hread, !join_app, !mentions_app in Hcr.
  apply orb_false_iff in Hcr as [_ Hcr].
  by apply orb_false_iff in Hcr as [Hcr _].
Qed.

Lemma endswith_app_r (a b s : string) :
  endswith b s = true → endswith (a +:+ b) s = true.
Proof.
  intros [front ->]%endswith_app. apply endswith_app.
  exists (a +:+ front). by rewrite string_app_assoc.
Qed.

Lemma terminated_endswith (line : string) :
  terminated line = true → endswith line nl = true.
Proof.
  induction line as [|c line IH]; [done |]. cbn [terminated].
  destruct (Ascii.eqb_spec c LF) as [-> | Hne].
  - destruct line as [|d line]; [done | done].
  - intros Hline. apply (endswith_app_r (String c EmptyString) line nl).
    by apply IH.
Qed.

(** A replacement made of whole lines is spliced in as it is. *)
Lemma ensure_newline_join (ls : list string) :
  forallb terminated ls = true → ensure_newline (join ls) = join ls.
Proof.
  intros Hls. unfold ensure_newline.
  destruct (truthy (join ls)) eqn:Ht; [| done].
  assert (endswith (join ls) nl = true) as ->; [| done].
  induction ls as [|l ls IH]; [done |]. cbn [forallb join] in *.
  apply andb_true_iff in Hls as [Hl Hls].
  destruct (truthy (join ls)) eqn:Hrest.
  - apply endswith_app_r. by apply IH.
  - assert (join ls = EmptyString) as -> by (by destruct (join ls)).
    rewrite string_app_nil_r. by apply terminated_endswith.
Qed.

Section ScanThenResolve.

Variable rich_renders : Conflict → Resolution → bool.
Variable write_result : string → string → WriteResult.

(** The file after the first region has been replaced by whole lines. *)
Lemma first_region_replaced (path text : string) (plain : list string)
    (b : Block) (rest kept : list string) :
  readlines text = plain ++ block_lines b ++ rest →
  well_formed_block b = true →
  forallb terminated kept = true →
  let region := block_at path (readlines text) (length plain) in
  writelines
    (splice (readlines text) (start_line region) (end_line region)
       (ensure_newline (join kept)))
  = writelines (plain ++ kept ++ rest).
Proof.
  intros Hread Hb Hkept region.
  destruct (block_at_in_file path plain b rest Hb) as (Hstart & Hend & _).
  rewrite <-Hread in Hstart, Hend. fold region in Hstart, Hend.
  rewrite Hstart, Hend, ensure_newline_join by done.
  unfold splice, writelines. rewrite Hread.
  rewrite take_app_length.
  replace (length plain + length (local_lines b) + length (incoming_lines b)
           + 2 + 1)
    with (length plain + length (block_lines b))
    by (rewrite block_lines_length; lia).
  rewrite drop_app_add' by done. rewrite drop_app_length.
  rewrite !join_app. cbn [join]. by rewrite string_app_nil_r.
Qed.

Lemma first_region_scanned (path text : string) (plain : list string)
    (b : Block) (rest : list string) :
  readlines text = plain ++ block_lines b ++ rest →
  no_prefix "<<<<<<<" plain = true →
  well_formed_block b = true →
  ∃ others,
    scan_lines path (readlines text)
    = block_at path (readlines text) (length plain) :: others.
Proof.
  intros Hread Hplain Hb.
  destruct (block_at_in_file path plain b rest Hb) as (Hstart & _ & Hrep).
  rewrite <-Hread in Hstart, Hrep.
  destruct Hrep as (Hopen & _). rewrite Hstart in Hopen.
  apply well_formed_block_inv in Hb as (Hb & _).
  eexists. rewrite scan_lines_at.
  pose proof (scan_at_plain path plain [] (block_lines b ++ rest) [] Hplain)
    as Hskip.
  cbn [app length] in Hskip. rewrite <-Hread in Hskip. rewrite Hskip.
  rewrite (scan_at_nil_step _ _ _ _ Hopen), Hb. reflexivity.
Qed.


End ScanThenResolve.

Lemma scan_lines_no_opening (path : string) (lines : list string) :
  no_prefix "<<<<<<<" lines = true → scan_lines path lines = [].
Proof.
  intros Hno. rewrite scan_lines_at.
  pose proof (scan_at_plain path lines [] [] [] Hno) as Hplain.
  cbn [app length] in Hplain. rewrite app_nil_r in Hplain.
  rewrite Hplain. by apply scan_at_end.
Qed.

Lemma no_prefix_app (tok : string) (xs ys : list string) :
  no_prefix tok (xs ++ ys) = no_prefix tok xs && no_prefix tok ys.
Proof. unfold no_prefix. apply forallb_app. Qed.

(** The file rewritten with one side of its first region is read back as
    the lines it was written from. *)
Lemma readlines_kept (text : string) (plain : list string) (b : Block)
    (rest kept : list string) :
  readlines text = plain ++ block_lines b ++ rest →
  kept = local_lines b ∨ kept = incoming_lines b →
  readlines (writelines (plain ++ kept ++ rest)) = plain ++ kept ++ rest.
Proof.
  intros Hread Hkept.
  assert (readlines text
          = plain ++ [open_line b] ++ local_lines b ++ [sep_line b] ++
            incoming_lines b ++ [close_line b] ++ rest) as Hread'.
  { rewrite Hread. unfold block_lines. by list_assoc. }
  assert (forallb terminated plain = true) as Hplain.
  { apply (readlines_before_last text plain (open_line b)
             (local_lines b ++ [sep_line b] ++ incoming_lines b ++
              [close_line b] ++ rest)).
    rewrite Hread'. by list_assoc. }
  assert (forallb terminated kept = true ∧ mentions CR (join kept) = false)
    as [Hterm Hcr].
  { destruct Hkept as [-> | ->].
    - split.
      + pose proof (readlines_before_last text
                      (plain ++ [open_line b] ++ local_lines b) (sep_line b)
                      (incoming_lines b ++ [close_line b] ++ rest)) as H.
        rewrite !forallb_app, !andb_true_iff in H. apply H.
        rewrite Hread'. by list_assoc.
      + apply (readlines_no_cr text).
        exists (plain ++ [open_line b]),
          ([sep_line b] ++ incoming_lines b ++ [close_line b] ++ rest).
        rewrite Hread'. by list_assoc.
    - split.
      + pose proof (readlines_before_last text
                      (plain ++ [open_line b] ++ local_lines b ++ [sep_line b]
                       ++ incoming_lines b) (close_line b) rest) as H.
        rewrite !forallb_app, !andb_true_iff in H. apply H.
        rewrite Hread'. by list_assoc.
      + apply (readlines_no_cr text).
        exists (plain ++ [open_line b] ++ local_lines b ++ [sep_line b]),
          ([close_line b] ++ rest).
        rewrite Hread'. by list_assoc. }
  assert (mentions CR (join plain) = false) as Hcr_plain.
  { apply (readlines_no_cr text). exists [], (block_lines b ++ rest).
    by rewrite Hread. }
  assert (mentions CR (join rest) = false) as Hcr_rest.
  { apply (readlines_no_cr text). exists (plain ++ block_lines b), [].
    rewrite Hread, app_nil_r. by list_assoc. }
  assert (split_lines EmptyString (join rest) = rest) as Hrest.
  { apply (readlines_suffix text (plain ++ block_lines b)).
    rewrite Hread. by list_assoc. }
  unfold readlines, writelines.
  rewrite universal_newlines_id
    by (by rewrite !join_app, !mentions_app, Hcr_plain, Hcr, Hcr_rest).
  rewrite app_assoc, join_app.
  rewrite split_lines_join_tail by (by rewrite forallb_app, Hplain, Hterm).
  by rewrite Hrest.
Qed.

Section ScanAgain.

Variable rich_renders : Conflict → Resolution → bool.
Variable write_result : string → string → WriteResult.

(** X15. Scan, keep one side, scan again.  When the first region of a file
    is well-formed and no line outside it starts with [<<<<<<<], keeping
    its local side leaves a file that is read back as the ordinary lines,
    the local lines and the lines after the region, and whose scan reports
    no region, provided no local line starts with [<<<<<<<] and the file
    system takes the text; and likewise for the incoming side. *)
Theorem rescan_after_keeping_side (path text : string) (plain : list string)
    (b : Block) (rest : list string) (r : Resolution) (merged : string)
    (region : Conflict) (others : list Conflict) (w : World) :
  files w !! path = Some text →
  readlines text = plain ++ block_lines b ++ rest →
  no_prefix "<<<<<<<" plain = true →
  well_formed_block b = true →
  no_prefix "<<<<<<<" rest = true →
  merged_content r = Some merged →
  truthy merged = true →
  parse_conflict_file w path = region :: others →
  menu_shown rich_renders region r = true →
  others = [] ∧
  (no_prefix "<<<<<<<" (local_lines b) = true →
   write_result path (writelines (plain ++ local_lines b ++ rest)) = WriteOk →
   parse_conflict_file
     (snd (resolve_conflict rich_renders write_result region r
             (Chose "Keep YOUR version") w))
     path = []) ∧
  (no_prefix "<<<<<<<" (incoming_lines b) = true →
   write_result path (writelines (plain ++ incoming_lines b ++ rest)) = WriteOk →
   parse_conflict_file
     (snd (resolve_conflict rich_renders write_result region r
             (Chose "Keep THEIR version") w))
     path = []).
Proof.
  intros Htext Hread Hplain Hb Hrest Hmerged Htruthy Hparse Hshown.
  destruct (first_region_scanned path text plain b rest Hread Hplain Hb)
    as [others' Hscan].
  pose proof Hscan as Hothers.
  unfold parse_conflict_file in Hparse. rewrite Htext, Hscan in Hparse.
  injection Hparse as <- <-.
  set (region := block_at path (readlines text) (length plain)) in *.
  destruct (block_at_in_file path plain b rest Hb) as (_ & Hend & Hrep).
  rewrite <-Hread in Hend, Hrep. fold region in Hend, Hrep.
  destruct Hrep as (_ & _ & _ & _ & _ & Hcur & Hinc & _).
  assert (file_path region = path) as Hpath
    by (unfold region; by rewrite block_at_eq).
  split.
  { rewrite scan_lines_at in Hothers.
    pose proof (scan_at_plain path plain [] (block_lines b ++ rest) [] Hplain)
      as Hskip.
    cbn [app length] in Hskip. rewrite <-Hread in Hskip.
    rewrite Hskip in Hothers.
    assert (readlines text !! length plain = Some (open_line b)) as Hopen.
    { rewrite Hread. unfold block_lines. cbn [app].
      by apply list_lookup_middle. }
    rewrite (scan_at_nil_step _ _ _ _ Hopen) in Hothers.
    apply well_formed_block_inv in Hb as (Hb & _). rewrite Hb in Hothers.
    fold region in Hothers. injection Hothers as <-.
    rewrite Hend.
    pose proof (scan_at_plain path rest (plain ++ block_lines b) [] [] Hrest)
      as Htail.
    rewrite app_nil_r, <-app_assoc, <-Hread in Htail.
    rewrite length_app, block_lines_length in Htail.
    replace (length plain + length (local_lines b)
             + length (incoming_lines b) + 2 + 1)
      with (length plain
            + (length (local_lines b) + length (incoming_lines b) + 3))
      by lia.
    rewrite Htail. apply scan_at_end.
    rewrite Hread, !length_app, block_lines_length. lia. }
  rewrite <-Hpath in Htext.
  assert (∀ choice kept,
            String.eqb choice "Cancel" = false →
            String.eqb choice "Skip for now" = false →
            select_content choice merged (current_content region)
              (incoming_content region) = join kept →
            kept = local_lines b ∨ kept = incoming_lines b →
            no_prefix "<<<<<<<" kept = true →
            write_result path (writelines (plain ++ kept ++ rest)) = WriteOk →
            parse_conflict_file
              (snd (resolve_conflict rich_renders write_result region r
                      (Chose choice) w))
              path = []) as Hany.
  { intros choice kept Hc Hs Hsel Hkept Hno Hw.
    assert (forallb terminated kept = true) as Hterm.
    { pose proof (readlines_before_last text) as Hbefore.
      destruct Hkept as [-> | ->].
      - specialize (Hbefore (plain ++ [open_line b] ++ local_lines b)
                      (sep_line b)
                      (incoming_lines b ++ [close_line b] ++ rest)).
        rewrite !forallb_app, !andb_true_iff in Hbefore. apply Hbefore.
        rewrite Hread. unfold block_lines. by list_assoc.
      - specialize (Hbefore (plain ++ [open_line b] ++ local_lines b
                             ++ [sep_line b] ++ incoming_lines b)
                      (close_line b) rest).
        rewrite !forallb_app, !andb_true_iff in Hbefore. apply Hbefore.
        rewrite Hread. unfold block_lines. by list_assoc. }
    pose proof (first_region_replaced path text plain b rest kept Hread Hb
                  Hterm) as Hreplaced.
    cbv zeta in Hreplaced. fold region in Hreplaced.
    pose proof (resolve_conflict_applied rich_renders write_result region r
                  merged choice text w Hmerged Htruthy Hshown Hc Hs Htext)
      as Happly.
    cbv zeta in Happly. rewrite Hsel, Hreplaced, Hpath in Happly.
    rewrite (Happly Hw).
    unfold parse_conflict_file. cbn [snd files].
    rewrite lookup_insert_eq.
    rewrite (readlines_kept text plain b rest kept) by done.
    apply scan_lines_no_opening.
    by rewrite !no_prefix_app, Hplain, Hno, Hrest. }
  split; intros Hno Hw.
  - by apply (Hany "Keep YOUR version" (local_lines b)); [| | | left | |].
  - by apply (Hany "Keep THEIR version" (incoming_lines b)); [| | | right | |].
Qed.

End ScanAgain.


Lemma rescan_after_keeping_side_witness :
  ([] : list Conflict) = [] ∧
  (no_prefix "<<<<<<<" ["x" +:+ nl] = true →
   always_written "f.txt"
     (writelines (["a" +:+ nl] ++ ["x" +:+ nl] ++ ["b" +:+ nl])) = WriteOk →
   parse_conflict_file
     (snd (resolve_conflict prints_all always_written (scenario_region "f.txt")
             (shown_resolution "custom" "z") (Chose "Keep YOUR version")
             (world_with "f.txt" (writelines scenario_lines))))
     "f.txt" = []) ∧
  (no_prefix "<<<<<<<" ["y" +:+ nl] = true →
   always_written "f.txt"
     (writelines (["a" +:+ nl] ++ ["y" +:+ nl] ++ ["b" +:+ nl])) = WriteOk →
   parse_conflict_file
     (snd (resolve_conflict prints_all always_written (scenario_region "f.txt")
             (shown_resolution "custom" "z") (Chose "Keep THEIR version")
             (world_with "f.txt" (writelines scenario_lines))))
     "f.txt" = []).
Proof.
  apply (rescan_after_keeping_side prints_all always_written "f.txt"
           (writelines scenario_lines) ["a" +:+ nl]
           (mkBlock ("<<<<<<< HEAD" +:+ nl) ["x" +:+ nl] ("=======" +:+ nl)
              ["y" +:+ nl] (">>>>>>> feature" +:+ nl))
           ["b" +:+ nl] (shown_resolution "custom" "z") "z"
           (scenario_region "f.txt") []
           (world_with "f.txt" (writelines scenario_lines)));
    [apply lookup_singleton_eq | reflexivity .. | | reflexivity].
  unfold parse_conflict_file, world_with. cbn [files].
  rewrite lookup_singleton_eq. reflexivity.
Defined.

(** ** The handler *)

Lemma count_writes_app (xs ys : list io_op) :
  count_writes (xs ++ ys) = count_writes xs + count_writes ys.
Proof.
  induction xs as [|[p|p d|p] xs IH]; [done | done | | done].
  cbn [app count_writes]. by rewrite IH.
Qed.

Lemma parse_conflict_file_path (w : World) (path : string) :
  Forall (λ c, file_path c = path) (parse_conflict_file w path).
Proof.
  unfold parse_conflict_file. destruct (files w !! path) as [text|]; [| constructor].
  rewrite scan_lines_at.
  apply (scan_at_Forall _ _ _) with (n := length (readlines text)); [| lia].
  intros i line _ _. by rewrite block_at_eq.
Qed.

Section HandlerProperties.

Variable isspace : ascii → bool.
Variable rich_renders : Conflict → Resolution → bool.
Variable write_result : string → string → WriteResult.
Variable get_conflict_resolution : nat → Conflict → option Resolution.
Variable ask : nat → Answer.

(** What one call of [resolve_conflict] does to the counts. *)
Lemma resolve_conflict_step (c : Conflict) (r : Resolution) (ans : Answer)
    (w : World) :
  let run := resolve_conflict rich_renders write_result c r ans w in
  dom (files (snd run)) = dom (files w) ∧
  (∀ path, path ≠ file_path c → files (snd run) !! path = files w !! path) ∧
  count_writes (io_log (snd run))
  = count_writes (io_log w)
    + match fst run with Returned true => 1 | _ => 0 end.
Proof.
  intros run. subst run.
  destruct (resolve_conflict_cases rich_renders write_result c r ans w)
    as [[Hne Hw] | [[Hrun Hnone] | [(text & new_text & Htext & _ & Hrun)
        | [(text & new_text & Htext & _ & Hrun)
          | (text & new_text & rest & Htext & _ & Hrun)]]]].
  - destruct (resolve_conflict rich_renders write_result c r ans w) as [o w'].
    cbn [fst snd] in *. subst w'. split; [done |]. split; [done |].
    destruct o as [[|]|]; [done | lia | lia].
  - rewrite Hrun. cbn [fst snd files io_log]. split; [done |]. split; [done |].
    rewrite count_writes_app. cbn. lia.
  - rewrite Hrun. cbn [fst snd files io_log]. split; [| split].
    + rewrite dom_insert_L. apply elem_of_dom_2 in Htext.
      apply subseteq_union_1_L. by apply singleton_subseteq_l.
    + intros path Hne. by rewrite lookup_insert_ne.
    + rewrite count_writes_app. cbn. lia.
  - rewrite Hrun. cbn [fst snd files io_log]. split; [done |]. split; [done |].
    rewrite count_writes_app. cbn. lia.
  - rewrite Hrun. cbn [fst snd files io_log]. split; [| split].
    + rewrite dom_insert_L. apply elem_of_dom_2 in Htext.
      apply subseteq_union_1_L. by apply singleton_subseteq_l.
    + intros path Hne. by rewrite lookup_insert_ne.
    + rewrite count_writes_app. cbn. lia.
Qed.

Lemma handle_conflicts_inv (conflicts : list Conflict) :
  ∀ st : Progress,
    let st' :=
      progress_of
        (handle_conflicts rich_renders write_result
            get_conflict_resolution ask conflicts st) in
    total_conflicts st' = total_conflicts st ∧
    resolved_count st ≤ resolved_count st' ≤ resolved_count st + length conflicts ∧
    count_writes (io_log (world st')) + resolved_count st
    = count_writes (io_log (world st)) + resolved_count st' ∧
    dom (files (world st')) = dom (files (world st)) ∧
    (∀ path, Forall (λ c, file_path c ≠ path) conflicts →
       files (world st') !! path = files (world st) !! path).
Proof.
  induction conflicts as [|c conflicts IH]; intros st; cbn [handle_conflicts].
  - cbn. repeat split; try done; lia.
  - destruct (get_conflict_resolution (calls st) c) as [r|].
    + pose proof (resolve_conflict_step c r (ask (calls st)) (world st))
        as (Hdom & Hframe & Hwrites).
      destruct (resolve_conflict rich_renders write_result c r (ask (calls st)) (world st))
        as [[[|]|] w'] eqn:Hrun; cbn [fst snd] in *.
      * specialize (IH (mkProgress (calls st + 1) (total_conflicts st)
                          (resolved_count st + 1) w')).
        cbn [total_conflicts resolved_count world] in IH.
        destruct IH as (Ht & Hr & Hw & Hd & Hf).
        cbn [length]. repeat split; try lia; try congruence.
        intros path [Hc Hcs]%Forall_cons. rewrite Hf by done. by apply Hframe.
      * specialize (IH (mkProgress (calls st + 1) (total_conflicts st)
                          (resolved_count st) w')).
        cbn [total_conflicts resolved_count world] in IH.
        destruct IH as (Ht & Hr & Hw & Hd & Hf).
        cbn [length]. repeat split; try lia; try congruence.
        intros path [Hc Hcs]%Forall_cons. rewrite Hf by done. by apply Hframe.
      * cbn [progress_of total_conflicts resolved_count world length].
        repeat split; try lia; try congruence.
        intros path [Hc Hcs]%Forall_cons. by apply Hframe.
    + specialize (IH (mkProgress (calls st + 1) (total_conflicts st)
                        (resolved_count st) (world st))).
      cbn [total_conflicts resolved_count world] in IH.
      destruct IH as (Ht & Hr & Hw & Hd & Hf).
      cbn [length]. repeat split; try lia; try congruence.
      intros path [Hc Hcs]%Forall_cons. by apply Hf.
Qed.

Lemma handle_files_inv (conflicted_files : list string) :
  ∀ st : Progress,
    let st' :=
      progress_of
        (handle_files rich_renders write_result
            get_conflict_resolution ask conflicted_files
           st) in
    total_conflicts st ≤ total_conflicts st' ∧
    resolved_count st ≤ resolved_count st' ∧
    resolved_count st' + total_conflicts st
    ≤ resolved_count st + total_conflicts st' ∧
    count_writes (io_log (world st')) + resolved_count st
    = count_writes (io_log (world st)) + resolved_count st' ∧
    dom (files (world st')) = dom (files (world st)) ∧
    (∀ path, path ∉ conflicted_files →
       files (world st') !! path = files (world st) !! path).
Proof.
  induction conflicted_files as [|p ps IH]; intros st; cbn [handle_files].
  - cbn. repeat split; try done; lia.
  - pose proof (parse_conflict_file_path (world st) p) as Hpaths.
    destruct (parse_conflict_file (world st) p) as [|c cs] eqn:Hparse.
    + specialize (IH (mkProgress (calls st) (total_conflicts st)
                        (resolved_count st)
                        (mkWorld (files (world st))
                           (io_log (world st) ++ [IoRead p])))).
      cbn [total_conflicts resolved_count world files io_log] in IH.
      destruct IH as (Ht & Hr & Hrt & Hw & Hd & Hf).
      rewrite count_writes_app in Hw. cbn in Hw.
      repeat split; try lia; try congruence.
      intros path [Hp Hps]%not_elem_of_cons. by apply Hf.
    + pose proof (handle_conflicts_inv (c :: cs)
                    (mkProgress (calls st)
                       (total_conflicts st + length (c :: cs))
                       (resolved_count st)
                       (mkWorld (files (world st))
                          (io_log (world st) ++ [IoRead p])))) as Hinner.
      cbn [total_conflicts resolved_count world files io_log] in Hinner.
      destruct Hinner as (Ht1 & Hr1 & Hw1 & Hd1 & Hf1).
      rewrite count_writes_app in Hw1. cbn [count_writes] in Hw1.
      assert (∀ path, path ≠ p → Forall (λ c0, file_path c0 ≠ path) (c :: cs))
        as Hother.
      { intros path Hne. eapply Forall_impl; [exact Hpaths |].
        cbn. congruence. }
      destruct (handle_conflicts rich_renders write_result
          get_conflict_resolution ask
                  (c :: cs) _) as [st1 | st1]; cbn [progress_of] in *.
      * specialize (IH st1). destruct IH as (Ht & Hr & Hrt & Hw & Hd & Hf).
        repeat split; try lia; try congruence.
        intros path [Hp Hps]%not_elem_of_cons.
        rewrite Hf by done. by apply Hf1, Hother.
      * repeat split; try lia; try congruence.
        intros path [Hp Hps]%not_elem_of_cons. by apply Hf1, Hother.
Qed.


(** X17. However the handler ends, it creates and deletes no file, and it
    leaves every file that git did not list as conflicted with the text it
    had. *)
Theorem handler_frame (in_repository : bool) (git_output : option string)
    (w : World) :
  let w' :=
    snd (handle_conflict_resolution isspace rich_renders write_result
           get_conflict_resolution ask in_repository git_output w) in
  dom (files w') = dom (files w) ∧
  ∀ path, path ∉ get_conflicted_files isspace git_output →
          files w' !! path = files w !! path.
Proof.
  intros w'. subst w'. unfold handle_conflict_resolution.
  destruct in_repository; [| done]. cbn [negb].
  destruct (get_conflicted_files isspace git_output) as [|p ps] eqn:Hlist;
    [done |].
  pose proof (handle_files_inv (p :: ps) (mkProgress 0 0 0 w))
    as (_ & _ & _ & _ & Hd & Hf).
  cbn [world] in *.
  by destruct (handle_files rich_renders write_result
      get_conflict_resolution ask (p :: ps) _)
    as [st | st].
Qed.

Lemma handle_files_clean (conflicted_files : list string) :
  ∀ st : Progress,
    Forall (λ path, parse_conflict_file (world st) path = []) conflicted_files →
    ∃ log,
      handle_files rich_renders write_result
          get_conflict_resolution ask conflicted_files st
      = Completed
          (mkProgress (calls st) (total_conflicts st) (resolved_count st)
             (mkWorld (files (world st)) (io_log (world st) ++ log))) ∧
      count_writes log = 0.
Proof.
  induction conflicted_files as [|p ps IH]; intros st Hclean.
  - exists []. rewrite app_nil_r. by destruct st as [? ? ? []].
  - apply Forall_cons in Hclean as [Hp Hps]. cbn [handle_files]. rewrite Hp.
    destruct (IH (mkProgress (calls st) (total_conflicts st)
                    (resolved_count st)
                    (mkWorld (files (world st))
                       (io_log (world st) ++ [IoRead p]))))
      as (log & -> & Hlog).
    { eapply Forall_impl; [exact Hps |]. intros path Hpath.
      unfold parse_conflict_file in *. exact Hpath. }
    exists (IoRead p :: log). cbn [calls total_conflicts resolved_count world
                                    files io_log count_writes].
    split; [| done]. by rewrite <-app_assoc.
Qed.

(** X18. When no listed file has a conflict to show (each is unreadable or
    has no line that starts with [<<<<<<<]), the handler asks nothing,
    writes nothing, changes no file and reports zero conflicts. *)
Theorem handler_nothing_to_resolve (git_output : option string) (w : World) :
  Forall (λ path, parse_conflict_file w path = [])
    (get_conflicted_files isspace git_output) →
  let run :=
    handle_conflict_resolution isspace rich_renders write_result
      get_conflict_resolution ask
      true git_output w in
  (fst run = NoConflicts ∨ fst run = Summary 0 0) ∧
  files (snd run) = files w ∧
  count_writes (io_log (snd run)) = count_writes (io_log w).
Proof.
  intros Hclean run. subst run. unfold handle_conflict_resolution. cbn [negb].
  destruct (get_conflicted_files isspace git_output) as [|p ps]; [by auto |].
  destruct (handle_files_clean (p :: ps) (mkProgress 0 0 0 w) Hclean)
    as (log & -> & Hlog).
  cbn [fst snd calls total_conflicts resolved_count world files io_log].
  split; [by right |]. split; [done |].
  rewrite count_writes_app. lia.
Qed.

End HandlerProperties.


Lemma handler_nothing_to_resolve_witness :
  let run :=
    handle_conflict_resolution isspace_ascii prints_all always_written
      (always_suggests (shown_resolution "custom" "z"))
      (always_answers (Chose "Accept AI suggestion"))
      true (Some ("f.txt" +:+ nl +:+ "g.txt" +:+ nl))
      (world_with "f.txt" ("a" +:+ nl +:+ "b" +:+ nl)) in
  (fst run = NoConflicts ∨ fst run = Summary 0 0) ∧
  files (snd run) = files (world_with "f.txt" ("a" +:+ nl +:+ "b" +:+ nl)) ∧
  count_writes (io_log (snd run))
  = count_writes (io_log (world_with "f.txt" ("a" +:+ nl +:+ "b" +:+ nl))).
Proof.
  apply (handler_nothing_to_resolve isspace_ascii prints_all always_written
           (always_suggests (shown_resolution "custom" "z"))
           (always_answers (Chose "Accept AI suggestion"))
           (Some ("f.txt" +:+ nl +:+ "g.txt" +:+ nl))
           (world_with "f.txt" ("a" +:+ nl +:+ "b" +:+ nl))).
  vm_compute. repeat constructor.
Defined.

(** ** The list of conflicted files *)

Lemma split_on_no_sep (sep : ascii) (s cur : string) :
  mentions sep cur = false →
  Forall (λ piece, mentions sep piece = false) (split_on sep cur s).
Proof.
  revert cur. induction s as [|c s IH]; intros cur Hcur; cbn [split_on].
  - by constructor.
  - destruct (Ascii.eqb_spec c sep) as [-> | Hne].
    + constructor; [done | by apply IH].
    + apply IH. rewrite mentions_app, Hcur. cbn [mentions].
      rewrite orb_false_r. apply Ascii.eqb_neq. congruence.
Qed.

Lemma split_on_line (sep : ascii) (name cur rest : string) :
  mentions sep name = false →
  split_on sep cur (name +:+ String sep rest)
  = (cur +:+ name) :: split_on sep EmptyString rest.
Proof.
  revert cur. induction name as [|c name IH]; intros cur.
  - intros _. change (EmptyString +:+ String sep rest) with (String sep rest).
    cbn [split_on]. by rewrite Ascii.eqb_refl, string_app_nil_r.
  - cbn [mentions]. intros [Hc Hname]%orb_false_iff.
    rewrite string_app_cons. cbn [split_on].
    rewrite Ascii.eqb_sym, Hc. rewrite IH by done.
    by rewrite string_app_assoc.
Qed.

Section StripProperties.

Variable isspace : ascii → bool.

Lemma rstrip_cons (c : ascii) (rest : string) :
  rstrip isspace (String c rest) =
  match rstrip isspace rest with
  | EmptyString => if isspace c then EmptyString else String c EmptyString
  | String d kept => String c (String d kept)
  end.
Proof. reflexivity. Qed.

Lemma lstrip_suffix (s : string) :
  ∃ removed, s = removed +:+ lstrip isspace s.
Proof.
  induction s as [|c s [removed IH]]; [by exists EmptyString |].
  cbn [lstrip]. destruct (isspace c); [| by exists EmptyString].
  exists (String c removed). by rewrite string_app_cons, <-IH.
Qed.

Lemma rstrip_prefix (s : string) :
  ∃ removed, s = rstrip isspace s +:+ removed.
Proof.
  induction s as [|c s [removed IH]]; [by exists EmptyString |].
  rewrite rstrip_cons. destruct (rstrip isspace s) as [|d kept].
  - destruct (isspace c).
    + exists (String c removed). by rewrite IH.
    + exists removed. by rewrite IH.
  - exists removed. rewrite !string_app_cons. by rewrite <-string_app_cons, <-IH.
Qed.

Lemma lstrip_first (s : string) (c : ascii) (rest : string) :
  lstrip isspace s = String c rest → isspace c = false.
Proof.
  induction s as [|d s IH]; [done |]. cbn [lstrip].
  destruct (isspace d) eqn:Hd; [done |]. by intros [= <- _].
Qed.

Lemma rstrip_last (s : string) :
  ∀ (front : string) (c : ascii),
    rstrip isspace s = front +:+ String c EmptyString → isspace c = false.
Proof.
  induction s as [|d s IH]; intros front c.
  - by destruct front.
  - rewrite rstrip_cons. destruct (rstrip isspace s) as [|e kept].
    + destruct (isspace d) eqn:Hd; [by destruct front |].
      destruct front as [|f front]; [by intros [= <-] |].
      rewrite string_app_cons. intros [= _ H]. by destruct front.
    + destruct front as [|f front]; [done |].
      rewrite string_app_cons. intros [= _ H]. by apply (IH front c).
Qed.

Lemma strip_mentions (sep : ascii) (s : string) :
  mentions sep s = false → mentions sep (strip isspace s) = false.
Proof.
  intros Hs. unfold strip.
  destruct (lstrip_suffix s) as [r1 H1].
  destruct (rstrip_prefix (lstrip isspace s)) as [r2 H2].
  rewrite H1, H2, !mentions_app in Hs.
  apply orb_false_iff in Hs as [_ Hs]. by apply orb_false_iff in Hs as [Hs _].
Qed.

Lemma strip_first (s : string) (c : ascii) (rest : string) :
  strip isspace s = String c rest → isspace c = false.
Proof.
  unfold strip. intros Hs.
  destruct (rstrip_prefix (lstrip isspace s)) as [removed H].
  rewrite Hs, string_app_cons in H. by apply lstrip_first in H.
Qed.

(** X19. Every name that [get_conflicted_files] returns is non-empty,
    holds no line feed and neither begins nor ends with a white-space
    character; when git cannot be run, or prints nothing, the list is
    empty. *)
Theorem conflicted_files_are_clean (git_output : option string) :
  Forall
    (λ f,
       truthy f = true ∧
       mentions LF f = false ∧
       (∀ c rest, f = String c rest → isspace c = false) ∧
       (∀ front c, f = front +:+ String c EmptyString → isspace c = false))
    (get_conflicted_files isspace git_output) ∧
  get_conflicted_files isspace None = [] ∧
  get_conflicted_files isspace (Some EmptyString) = [].
Proof.
  split; [| done]. destruct git_output as [stdout|]; [| constructor].
  unfold get_conflicted_files. apply Forall_forall. intros f Hf.
  apply list_elem_of_filter in Hf as [Htruthy Hf].
  apply list_elem_of_fmap in Hf as (piece & -> & Hpiece).
  split; [done |]. split; [| split].
  - apply strip_mentions.
    pose proof (split_on_no_sep LF stdout EmptyString eq_refl) as Hall.
    rewrite Forall_forall in Hall. by apply Hall.
  - intros c rest. apply strip_first.
  - intros front c. apply rstrip_last.
Qed.

(** X20. When git prints one name per line, and the names are non-empty,
    hold no line feed and have no white space at either end,
    [get_conflicted_files] returns exactly these names, in this order. *)
Theorem conflicted_files_round_trip (names : list string) :
  Forall
    (λ f, truthy f = true ∧ mentions LF f = false ∧ strip isspace f = f)
    names →
  get_conflicted_files isspace (Some (join ((λ f, f +:+ nl) <$> names)))
  = names.
Proof.
  intros Hnames. unfold get_conflicted_files.
  assert (split_on LF EmptyString (join ((λ f, f +:+ nl) <$> names))
          = names ++ [EmptyString]) as ->.
  { induction Hnames as [|f names (Ht & Hlf & Hs) _ IH]; [done |].
    cbn [fmap list_fmap join]. rewrite string_app_assoc.
    change (nl +:+ join ((λ f0, f0 +:+ nl) <$> names))
      with (String LF (join ((λ f0, f0 +:+ nl) <$> names))).
    rewrite split_on_line by done. by rewrite IH. }
  rewrite fmap_app, filter_app. cbn [fmap list_fmap].
  rewrite filter_cons_False by done. rewrite filter_nil, app_nil_r.
  induction Hnames as [|f names (Ht & Hlf & Hs) _ IH]; [done |].
  cbn [fmap list_fmap]. rewrite Hs, filter_cons_True by done. by rewrite IH.
Qed.

End StripProperties.

Lemma conflicted_files_round_trip_witness :
  get_conflicted_files isspace_ascii
    (Some (join ((λ f, f +:+ nl) <$> ["src/a b.py"; "README.md"])))
  = ["src/a b.py"; "README.md"].
Proof.
  apply (conflicted_files_round_trip isspace_ascii ["src/a b.py"; "README.md"]).
  repeat constructor.
Defined.

(** ** Running a generated command *)

Section ConfirmAndExecuteProperties.

Variable panels_render : CommandData → bool.


End ConfirmAndExecuteProperties.

(** ** A file with two regions *)

Lemma two_regions_scanned (path : string) (plain1 : list string) (b1 : Block)
    (plain2 : list string) (b2 : Block) (trailer : list string) :
  no_prefix "<<<<<<<" plain1 = true →
  well_formed_block b1 = true →
  no_prefix "<<<<<<<" plain2 = true →
  well_formed_block b2 = true →
  no_prefix "<<<<<<<" trailer = true →
  let lines :=
    plain1 ++ block_lines b1 ++ plain2 ++ block_lines b2 ++ trailer in
  scan_lines path lines
  = [ block_at path lines (length plain1);
      block_at path lines (length (plain1 ++ block_lines b1 ++ plain2)) ].
Proof.
  intros Hp1 Hb1 Hp2 Hb2 Ht lines.
  set (pre2 := plain1 ++ block_lines b1 ++ plain2).
  assert (lines = pre2 ++ block_lines b2 ++ trailer) as Hlines2
    by (unfold lines, pre2; by list_assoc).
  destruct (block_at_in_file path plain1 b1
              (plain2 ++ block_lines b2 ++ trailer) Hb1)
    as (_ & Hend1 & Hopen1 & _).
  fold lines in Hend1, Hopen1. rewrite block_at_start in Hopen1.
  destruct (block_at_in_file path pre2 b2 trailer Hb2)
    as (_ & Hend2 & Hopen2 & _).
  rewrite <-Hlines2 in Hend2, Hopen2. rewrite block_at_start in Hopen2.
  apply well_formed_block_inv in Hb1 as (Hstart1 & _).
  apply well_formed_block_inv in Hb2 as (Hstart2 & _).
  rewrite scan_lines_at.
  pose proof (scan_at_plain path plain1 []
                (block_lines b1 ++ plain2 ++ block_lines b2 ++ trailer) [] Hp1)
    as Hskip1.
  cbn [app length] in Hskip1. fold lines in Hskip1. rewrite Hskip1.
  rewrite (scan_at_nil_step _ _ _ _ Hopen1), Hstart1. f_equal.
  pose proof (scan_at_plain path plain2 (plain1 ++ block_lines b1)
                (block_lines b2 ++ trailer) [] Hp2) as Hskip2.
  replace ((plain1 ++ block_lines b1) ++ plain2 ++ block_lines b2 ++ trailer)
    with lines in Hskip2 by (unfold lines; by list_assoc).
  rewrite length_app, block_lines_length in Hskip2.
  rewrite Hend1.
  replace (length plain1 + length (local_lines b1) + length (incoming_lines b1)
           + 2 + 1)
    with (length plain1
          + (length (local_lines b1) + length (incoming_lines b1) + 3))
    by lia.
  rewrite Hskip2.
  replace (length plain1
           + (length (local_lines b1) + length (incoming_lines b1) + 3)
           + length plain2)
    with (length pre2)
    by (unfold pre2; rewrite !length_app, block_lines_length; lia).
  rewrite (scan_at_nil_step _ _ _ _ Hopen2), Hstart2. f_equal.
  pose proof (scan_at_plain path trailer (pre2 ++ block_lines b2) [] [] Ht)
    as Hskip3.
  rewrite app_nil_r in Hskip3.
  replace ((pre2 ++ block_lines b2) ++ trailer) with lines in Hskip3
    by (rewrite Hlines2; by list_assoc).
  rewrite Hend2.
  replace (length pre2 + length (local_lines b2) + length (incoming_lines b2)
           + 2 + 1)
    with (length (pre2 ++ block_lines b2))
    by (rewrite length_app, block_lines_length; lia).
  rewrite Hskip3. apply scan_at_end.
  rewrite Hlines2, !length_app. lia.
Qed.

Section TwoRegions.

Variable isspace : ascii → bool.
Variable rich_renders : Conflict → Resolution → bool.
Variable write_result : string → string → WriteResult.
Variable get_conflict_resolution : nat → Conflict → option Resolution.
Variable ask : nat → Answer.


End TwoRegions.


(** ** Answers of the model that resolve nothing *)

Section UnhelpfulAnswers.

Variable isspace : ascii → bool.
Variable rich_renders : Conflict → Resolution → bool.
Variable write_result : string → string → WriteResult.
Variable get_conflict_resolution : nat → Conflict → option Resolution.
Variable ask : nat → Answer.

(** X23. A resolution that carries a merged text but no [suggestion] makes
    [resolve_conflict] raise before the menu, with nothing read or written;
    when this happens at the first conflict of the first listed file, the
    handler ends with that exception: no summary, no file changed, the
    other conflicts and files not looked at. *)
Theorem missing_suggestion_raises (r : Resolution) (merged : string) :
  merged_content r = Some merged →
  truthy merged = true →
  suggestion r = None →
  (∀ c ans w, resolve_conflict rich_renders write_result c r ans w = (Raised, w)) ∧
  (∀ git_output path others c cs w,
     get_conflicted_files isspace git_output = path :: others →
     parse_conflict_file w path = c :: cs →
     get_conflict_resolution 0 c = Some r →
     handle_conflict_resolution isspace rich_renders write_result
         get_conflict_resolution
       ask true git_output w
     = (Exception, mkWorld (files w) (io_log w ++ [IoRead path]))).
Proof.
  intros Hmerged Htruthy Hnone.
  assert (∀ c ans w, resolve_conflict rich_renders write_result c r ans w = (Raised, w))
    as Hraise.
  { intros c ans w. unfold resolve_conflict, menu_shown.
    by rewrite Hmerged, Htruthy, Hnone. }
  split; [done |].
  intros git_output path others c cs w Hlist Hparse Hres.
  unfold handle_conflict_resolution. cbn [negb]. rewrite Hlist.
  cbn [handle_files calls total_conflicts resolved_count world].
  rewrite Hparse.
  cbn [handle_conflicts calls total_conflicts resolved_count world].
  by rewrite Hres, Hraise.
Qed.

Lemma handle_conflicts_no_answer (conflicts : list Conflict) :
  (∀ k c, get_conflict_resolution k c = None) →
  ∀ st,
    handle_conflicts rich_renders write_result
        get_conflict_resolution ask conflicts st
    = Completed
        (mkProgress (calls st + length conflicts) (total_conflicts st)
           (resolved_count st) (world st)).
Proof.
  intros Hnone. induction conflicts as [|c cs IH]; intros st.
  - cbn. rewrite Nat.add_0_r. by destruct st.
  - cbn [handle_conflicts]. rewrite Hnone, IH. cbn. do 2 f_equal. lia.
Qed.

Lemma handle_files_no_answer (conflicted_files : list string) :
  (∀ k c, get_conflict_resolution k c = None) →
  ∀ st, ∃ k log,
    handle_files rich_renders write_result
        get_conflict_resolution ask conflicted_files st
    = Completed
        (mkProgress k
           (total_conflicts st
            + length (concat (parse_conflict_file (world st) <$> conflicted_files)))
           (resolved_count st)
           (mkWorld (files (world st)) (io_log (world st) ++ log))) ∧
    count_writes log = 0.
Proof.
  intros Hnone. induction conflicted_files as [|p ps IH]; intros st.
  - exists (calls st), []. cbn. rewrite Nat.add_0_r, app_nil_r.
    by destruct st as [? ? ? []].
  - cbn [handle_files fmap list_fmap concat]. rewrite length_app.
    destruct (parse_conflict_file (world st) p) as [|c cs] eqn:Hparse.
    + destruct (IH (mkProgress (calls st) (total_conflicts st)
                      (resolved_count st)
                      (mkWorld (files (world st))
                         (io_log (world st) ++ [IoRead p]))))
        as (k & log & -> & Hlog).
      exists k, (IoRead p :: log).
      cbn [total_conflicts resolved_count world files io_log length
           count_writes].
      split; [| done]. by rewrite <-app_assoc.
    + rewrite handle_conflicts_no_answer by done.
      cbn [calls total_conflicts resolved_count world].
      destruct (IH (mkProgress (calls st + length (c :: cs))
                      (total_conflicts st + length (c :: cs))
                      (resolved_count st)
                      (mkWorld (files (world st))
                         (io_log (world st) ++ [IoRead p]))))
        as (k & log & -> & Hlog).
      exists k, (IoRead p :: log).
      cbn [total_conflicts resolved_count world files io_log count_writes].
      split; [| done]. rewrite <-app_assoc.
      change (parse_conflict_file
                (mkWorld (files (world st)) (io_log (world st) ++ [IoRead p])))
        with (parse_conflict_file (world st)).
      do 2 f_equal. lia.
Qed.

(** X24. When the model gives no answer for any conflict, the handler
    still goes through every listed file: it reports zero resolved
    conflicts out of the number of regions that the scans of the listed
    files find, changes no file and writes nothing. *)
Theorem handler_without_answers (git_output : option string) (w : World) :
  (∀ k c, get_conflict_resolution k c = None) →
  let run :=
    handle_conflict_resolution isspace rich_renders write_result
      get_conflict_resolution ask
      true git_output w in
  (fst run = NoConflicts ∧ get_conflicted_files isspace git_output = [] ∨
   fst run
   = Summary 0
       (length
          (concat
             (parse_conflict_file w <$> get_conflicted_files isspace git_output)))) ∧
  files (snd run) = files w ∧
  count_writes (io_log (snd run)) = count_writes (io_log w).
Proof.
  intros Hnone run. subst run. unfold handle_conflict_resolution. cbn [negb].
  destruct (get_conflicted_files isspace git_output) as [|p ps]; [by auto |].
  destruct (handle_files_no_answer (p :: ps) Hnone (mkProgress 0 0 0 w))
    as (k & log & -> & Hlog).
  cbn [fst snd total_conflicts resolved_count world files io_log].
  split; [by right |]. split; [done |]. rewrite count_writes_app. lia.
Qed.

End UnhelpfulAnswers.

(** A model that never answers. *)
Lemma handler_without_answers_witness :
  let run :=
    handle_conflict_resolution isspace_ascii prints_all always_written (λ _ _, None)
      (always_answers (Chose "Accept AI suggestion"))
      true (Some ("f.txt" +:+ nl))
      (world_with "f.txt" (writelines scenario_lines)) in
  (fst run = NoConflicts ∧
   get_conflicted_files isspace_ascii (Some ("f.txt" +:+ nl)) = [] ∨
   fst run
   = Summary 0
       (length
          (concat
             (parse_conflict_file
                (world_with "f.txt" (writelines scenario_lines))
              <$> get_conflicted_files isspace_ascii
                    (Some ("f.txt" +:+ nl)))))) ∧
  files (snd run) = files (world_with "f.txt" (writelines scenario_lines)) ∧
  count_writes (io_log (snd run))
  = count_writes (io_log (world_with "f.txt" (writelines scenario_lines))).
Proof.
  apply (handler_without_answers isspace_ascii prints_all always_written (λ _ _, None)
           (always_answers (Chose "Accept AI suggestion"))
           (Some ("f.txt" +:+ nl))
           (world_with "f.txt" (writelines scenario_lines))).
  reflexivity.
Defined.

Lemma missing_suggestion_raises_witness :
  (∀ c ans w,
     resolve_conflict prints_all always_written c
       (mkResolution None (Some "z") (Some "e") (Some "HIGH") (Some "r")) ans w
     = (Raised, w)) ∧
  (∀ git_output path others c cs w,
     get_conflicted_files isspace_ascii git_output = path :: others →
     parse_conflict_file w path = c :: cs →
     always_suggests
       (mkResolution None (Some "z") (Some "e") (Some "HIGH") (Some "r")) 0 c
     = Some (mkResolution None (Some "z") (Some "e") (Some "HIGH") (Some "r")) →
     handle_conflict_resolution isspace_ascii prints_all always_written
       (always_suggests
          (mkResolution None (Some "z") (Some "e") (Some "HIGH") (Some "r")))
       (always_answers (Chose "Accept AI suggestion")) true git_output w
     = (Exception, mkWorld (files w) (io_log w ++ [IoRead path]))).
Proof.
  apply (missing_suggestion_raises isspace_ascii prints_all always_written
           (always_suggests
              (mkResolution None (Some "z") (Some "e") (Some "HIGH") (Some "r")))
           (always_answers (Chose "Accept AI suggestion"))
           (mkResolution None (Some "z") (Some "e") (Some "HIGH") (Some "r"))
           "z"); reflexivity.
Defined.
